(** * japanese_translator.py: a shallow embedding and its properties

    The translator of [src/japanese_translator.py] is a chain of pure
    string transformations over Python [str] values: dictionary
    substitution ([str.replace] in descending key-length order), a
    full-width to half-width table, two regular-expression spacing
    passes, and a line-oriented splitter of the materials cell.

    Python strings are sequences of Unicode code points, and [len],
    slicing and [replace] count code points, so a string is modelled
    as a list of code points ([N]).  String literals are written as in
    the source and decoded from the UTF-8 bytes of the file. *)

From Stdlib Require Import NArith ZArith Strings.String Strings.Byte.
From stdpp Require Import base numbers list gmap sorting.

Set Default Proof Using "Type".

(** ** Python strings *)

Module PyStr.

Abbreviation char := N (only parsing).
Abbreviation str := (list N) (only parsing).

(** UTF-8 decoding of a literal (one to four byte sequences). *)
Fixpoint utf8_decode (bs : list N) : str :=
  match bs with
  | [] => []
  | b0 :: r0 =>
    if (b0 <? 0x80)%N then b0 :: utf8_decode r0
    else if (b0 <? 0xE0)%N then
      match r0 with
      | b1 :: r1 =>
        N.lor (N.shiftl (N.land b0 0x1F) 6) (N.land b1 0x3F) :: utf8_decode r1
      | _ => []
      end
    else if (b0 <? 0xF0)%N then
      match r0 with
      | b1 :: b2 :: r2 =>
        N.lor (N.shiftl (N.land b0 0x0F) 12)
          (N.lor (N.shiftl (N.land b1 0x3F) 6) (N.land b2 0x3F))
        :: utf8_decode r2
      | _ => []
      end
    else
      match r0 with
      | b1 :: b2 :: b3 :: r3 =>
        N.lor (N.shiftl (N.land b0 0x07) 18)
          (N.lor (N.shiftl (N.land b1 0x3F) 12)
             (N.lor (N.shiftl (N.land b2 0x3F) 6) (N.land b3 0x3F)))
        :: utf8_decode r3
      | _ => []
      end
  end.

Definition lit (s : String.string) : str :=
  utf8_decode (map Byte.to_N (list_byte_of_string s)).

(** The one code point of a one-character literal. *)
Definition chr (s : String.string) : char := hd 0%N (lit s).

Definition nl : char := 0x0A%N.
Definition space : char := 0x20%N.

Definition in_range (lo hi c : N) : bool := (lo <=? c)%N && (c <=? hi)%N.

(** [Py_UNICODE_ISSPACE]: the characters removed by [str.strip()] and
    matched by the regular expression class [\s] on [str] patterns. *)
Definition is_space (c : char) : bool :=
  in_range 0x09 0x0D c || in_range 0x1C 0x20 c
  || (c =? 0x85)%N || (c =? 0xA0)%N || (c =? 0x1680)%N
  || in_range 0x2000 0x200A c || (c =? 0x2028)%N || (c =? 0x2029)%N
  || (c =? 0x202F)%N || (c =? 0x205F)%N || (c =? 0x3000)%N.

(** First code point of every block of ten decimal digits (general
    category Nd) of the Unicode character database, version 14. *)
Definition decimal_zeros : list N :=
  [0x30; 0x660; 0x6F0; 0x7C0; 0x966; 0x9E6; 0xA66; 0xAE6; 0xB66; 0xBE6;
   0xC66; 0xCE6; 0xD66; 0xDE6; 0xE50; 0xED0; 0xF20; 0x1040; 0x1090;
   0x17E0; 0x1810; 0x1946; 0x19D0; 0x1A80; 0x1A90; 0x1B50; 0x1BB0;
   0x1C40; 0x1C50; 0xA620; 0xA8D0; 0xA900; 0xA9D0; 0xA9F0; 0xAA50;
   0xABF0; 0xFF10; 0x104A0; 0x10D30; 0x11066; 0x110F0; 0x11136;
   0x111D0; 0x112F0; 0x11450; 0x114D0; 0x11650; 0x116C0; 0x11730;
   0x118E0; 0x11950; 0x11C50; 0x11D50; 0x11DA0; 0x16A60; 0x16AC0;
   0x16B50; 0x1E140; 0x1E2F0; 0x1E950; 0x1FBF0]%N.

(** The regular expression class [\d] on [str] patterns: any Unicode
    decimal digit, the mathematical digits U+1D7CE..U+1D7FF included. *)
Definition is_decimal (c : char) : bool :=
  existsb (fun z => in_range z (z + 9) c) decimal_zeros
  || in_range 0x1D7CE 0x1D7FF c.

(** [0-9] and [A-Za-z]. *)
Definition is_ascii_digit (c : char) : bool := in_range 0x30 0x39 c.
Definition is_ascii_letter (c : char) : bool :=
  in_range 0x41 0x5A c || in_range 0x61 0x7A c.

Definition str_eqb (a b : str) : bool := bool_decide (a = b).

(** [s.startswith(p)] *)
Fixpoint startswith (p s : str) : bool :=
  match p, s with
  | [], _ => true
  | _ :: _, [] => false
  | a :: p', b :: s' => (a =? b)%N && startswith p' s'
  end.

(** [p in s] *)
Fixpoint occurs (p s : str) : bool :=
  startswith p s ||
  match s with
  | [] => false
  | _ :: s' => occurs p s'
  end.

(** [s.lstrip()], [s.rstrip()], [s.strip()] *)
Fixpoint lstrip (s : str) : str :=
  match s with
  | [] => []
  | c :: r => if is_space c then lstrip r else s
  end.

Definition rstrip (s : str) : str := rev (lstrip (rev s)).
Definition strip (s : str) : str := rstrip (lstrip s).

(** [s.split(sep)] for a one-character separator: never empty. *)
Fixpoint split (sep : char) (s : str) : list str :=
  match s with
  | [] => [[]]
  | c :: r =>
    if (c =? sep)%N then [] :: split sep r
    else match split sep r with
         | l :: ls => (c :: l) :: ls
         | [] => [[c]]
         end
  end.

(** [sep.join(parts)] for a one-character separator. *)
Fixpoint join (sep : char) (parts : list str) : str :=
  match parts with
  | [] => []
  | [l] => l
  | l :: ls => l ++ sep :: join sep ls
  end.

(** Left-to-right scanning substitution, shared by [str.replace] and
    [re.sub].  [m] tries the pattern at the head of the remaining text
    and answers the replacement together with the number of characters
    the match consumed (at least one): the replacement is emitted and
    the scan resumes behind the match, so matches never overlap and
    inserted text is never scanned again.  [skip] counts the characters
    of the current match that are still to be passed over. *)
Definition matcher := str -> option (str * nat).

Fixpoint scan (m : matcher) (skip : nat) (s : str) : str :=
  match s with
  | [] => []
  | c :: r =>
    match skip with
    | S k => scan m k r
    | O =>
      match m s with
      | Some (repl, n) => repl ++ scan m (pred n) r
      | None => c :: scan m 0 r
      end
    end
  end.

Definition literal (old new : str) : matcher :=
  fun s => if startswith old s then Some (new, length old) else None.

(** [s.replace(old, new)].  With an empty [old] Python puts [new]
    before every character and at the end. *)
Definition replace (old new s : str) : str :=
  match old with
  | [] => new ++ flat_map (fun c => c :: new) s
  | _ :: _ => scan (literal old new) 0 s
  end.

End PyStr.

Import PyStr.

(** ** Regular expressions of the source

    Each pattern of the source is embedded as the [matcher] that tries
    it at one position; [re.sub] is [scan] from the left. *)

Module Re.

Fixpoint takewhile (p : char -> bool) (s : str) : str :=
  match s with
  | c :: r => if p c then c :: takewhile p r else []
  | [] => []
  end.

Fixpoint dropwhile (p : char -> bool) (s : str) : str :=
  match s with
  | c :: r => if p c then dropwhile p r else s
  | [] => []
  end.

Definition sub (m : matcher) (s : str) : str := scan m 0 s.

(** [c(?![\s\n])] replaced by [c] and a space: the character [c]
    where the next character is not of the class [\s] or a line feed;
    the negative lookahead also succeeds at the end of the text. *)
Definition next_is_space (r : str) : bool :=
  match r with
  | y :: _ => is_space y || (y =? nl)%N
  | [] => false
  end.

Definition punct_no_space (c : char) : matcher :=
  fun s =>
    match s with
    | x :: r =>
      if (x =? c)%N && negb (next_is_space r) then Some ([c; space], 1)
      else None
    | [] => None
    end.

(** [([A-Za-z]+)(\d+%)] and [([A-Za-z]+)(\d+)], replaced by the two
    groups with a space between them.  Both groups are greedy.  Giving
    back letters cannot help, the next character would be a letter and
    not a digit; giving back digits cannot help the first pattern, the
    next character would be a digit and not [%]; so the first group is
    the whole run of letters at the position and the second group the
    whole run of digits behind it. *)
Definition percent : char := chr "%".

Definition letters_digits (with_percent : bool) : matcher :=
  fun s =>
    let g1 := takewhile is_ascii_letter s in
    let r1 := dropwhile is_ascii_letter s in
    let g2 := takewhile is_decimal r1 in
    let r2 := dropwhile is_decimal r1 in
    match g1, g2 with
    | _ :: _, _ :: _ =>
      if with_percent then
        match r2 with
        | x :: _ =>
          if (x =? percent)%N
          then Some (g1 ++ space :: g2 ++ [percent],
                     length g1 + length g2 + 1)
          else None
        | [] => None
        end
      else Some (g1 ++ space :: g2, length g1 + length g2)
    | _, _ => None
    end.

(** [re.findall] of a one-class pattern [[...]+]: the maximal runs of
    characters of the class, from left to right. *)
Fixpoint findall (p : char -> bool) (s : str) : list str :=
  match s with
  | [] => []
  | c :: r =>
    if p c then
      match r with
      | c' :: _ =>
        if p c' then
          match findall p r with
          | run :: runs => (c :: run) :: runs
          | [] => [[c]]
          end
        else [c] :: findall p r
      | [] => [[c]]
      end
    else findall p r
  end.

(** [re.match] of an anchored one-class pattern [^[...]+$]: a non-empty
    run of the class up to the end of the text, or up to a line feed
    that ends the text. *)
Definition match_all (p : char -> bool) (s : str) : bool :=
  match takewhile p s, dropwhile p s with
  | _ :: _, [] => true
  | _ :: _, [x] => (x =? nl)%N
  | _, _ => false
  end.

End Re.

(** ** The translator *)

Module Translator.

(** A Python [dict] with [str] keys and values keeps its entries in
    insertion order, which decides the ties of [sorted]. *)
Definition dict := list (str * str).

Definition entry (e : string * string) : str * str := (lit e.1, lit e.2).

Definition keys (d : dict) : list str := map fst d.

(** [k in d] *)
Definition has_key (d : dict) (k : str) : bool :=
  existsb (fun e => str_eqb e.1 k) d.

(** [d[k] = v]: the value of a present key is overwritten in place, a
    new key goes to the end. *)
Fixpoint dict_set (d : dict) (k v : str) : dict :=
  match d with
  | [] => [(k, v)]
  | (k', v') :: d' =>
    if str_eqb k' k then (k, v) :: d' else (k', v') :: dict_set d' k v
  end.

(** [d.update(other)] *)
Definition dict_update (d other : dict) : dict :=
  fold_left (fun acc e => dict_set acc e.1 e.2) other d.

(** The table of [__init__]. *)
Definition base_translations : dict := map entry
  [("総丈", "Total Length"); ("股下", "Inseam"); ("身幅", "Body Width");
   ("裄丈", "Sleeve Length"); ("フード丈", "Hood Length"); ("フード幅", "Hood Width");
   ("肩幅", "Shoulder Width"); ("胸囲", "Chest"); ("ウエスト", "Waist");
   ("ヒップ", "Hip"); ("袖丈", "Sleeve Length"); ("袖口", "Cuff");
   ("裾幅", "Hem Width"); ("股上", "Rise"); ("太もも", "Thigh"); ("膝下", "Knee");
   ("足首", "Ankle"); ("丈", "Length"); ("幅", "Width"); ("cm", "cm");
   ("mm", "mm"); ("m", "m"); ("コットン", "Cotton"); ("綿", "Cotton");
   ("ポリエステル", "Polyester"); ("ナイロン", "Nylon"); ("ウール", "Wool");
   ("シルク", "Silk"); ("レーヨン", "Rayon"); ("アクリル", "Acrylic");
   ("スパンデックス", "Spandex"); ("エラスタン", "Elastane"); ("リネン", "Linen");
   ("カシミア", "Cashmere"); ("モヘア", "Mohair"); ("アルパカ", "Alpaca");
   ("混紡", "Blend"); ("100%", "100%"); ("表生地", "Main Fabric");
   ("裏生地", "Lining Fabric"); ("刺繍糸", "Embroidery Thread");
   ("再生繊維", "Regenerated Fiber"); ("セルロース", "Cellulose");
   ("ポリウレタン", "Polyurethane")]%string.

(** The table of [convert_fullwidth_to_halfwidth]. *)
Definition fullwidth_to_halfwidth : dict := map entry
  [("（", "("); ("）", ")"); ("［", "["); ("］", "]"); ("｛", "{"); ("｝", "}");
   ("：", ":"); ("；", ";"); ("，", ","); ("、", ","); ("．", "."); ("！", "!");
   ("？", "?"); ("～", " to "); ("－", "-"); ("＿", "_"); ("＝", "=");
   ("＋", "+"); ("＊", "*"); ("／", "/"); ("＼", "\"); ("｜", "|"); ("＠", "@");
   ("＃", "#"); ("＄", "$"); ("％", "%"); ("＾", "^"); ("＆", "&"); ("０", "0");
   ("１", "1"); ("２", "2"); ("３", "3"); ("４", "4"); ("５", "5"); ("６", "6");
   ("７", "7"); ("８", "8"); ("９", "9"); ("Ａ", "A"); ("Ｂ", "B"); ("Ｃ", "C");
   ("Ｄ", "D"); ("Ｅ", "E"); ("Ｆ", "F"); ("Ｇ", "G"); ("Ｈ", "H"); ("Ｉ", "I");
   ("Ｊ", "J"); ("Ｋ", "K"); ("Ｌ", "L"); ("Ｍ", "M"); ("Ｎ", "N"); ("Ｏ", "O");
   ("Ｐ", "P"); ("Ｑ", "Q"); ("Ｒ", "R"); ("Ｓ", "S"); ("Ｔ", "T"); ("Ｕ", "U");
   ("Ｖ", "V"); ("Ｗ", "W"); ("Ｘ", "X"); ("Ｙ", "Y"); ("Ｚ", "Z"); ("ａ", "a");
   ("ｂ", "b"); ("ｃ", "c"); ("ｄ", "d"); ("ｅ", "e"); ("ｆ", "f"); ("ｇ", "g");
   ("ｈ", "h"); ("ｉ", "i"); ("ｊ", "j"); ("ｋ", "k"); ("ｌ", "l"); ("ｍ", "m");
   ("ｎ", "n"); ("ｏ", "o"); ("ｐ", "p"); ("ｑ", "q"); ("ｒ", "r"); ("ｓ", "s");
   ("ｔ", "t"); ("ｕ", "u"); ("ｖ", "v"); ("ｗ", "w"); ("ｘ", "x"); ("ｙ", "y");
   ("ｚ", "z")]%string.

(** The fields of the translator object that the translation reads
    and writes. *)
Record translator := Translator {
  translations : dict;
  care_labels : dict;
  unknown_terms : gset str
}.

(** [sorted(d.items(), key=lambda x: len(x[0]), reverse=True)]:
    a stable sort, entries of equal key length keep their order. *)
Fixpoint insert_by_len (e : str * str) (l : list (str * str))
  : list (str * str) :=
  match l with
  | [] => [e]
  | e' :: l' =>
    if length e'.1 <=? length e.1 then e :: l
    else e' :: insert_by_len e l'
  end.

Definition sorted_by_len (d : dict) : list (str * str) :=
  foldr insert_by_len [] d.

(** [for japanese, english in entries: text = text.replace(...)] *)
Definition replace_all (entries : list (str * str)) (text : str) : str :=
  fold_left (fun acc e => replace e.1 e.2 acc) entries text.

Definition convert_fullwidth_to_halfwidth (text : str) : str :=
  match text with
  | [] => text
  | _ => replace_all fullwidth_to_halfwidth text
  end.

Definition add_spacing_after_punctuation (text : str) : str :=
  match text with
  | [] => text
  | _ =>
    let formatted_text := text in
    let formatted_text :=
      Re.sub (Re.punct_no_space (chr ")")) formatted_text in
    let formatted_text :=
      Re.sub (Re.punct_no_space (chr ",")) formatted_text in
    let formatted_text :=
      Re.sub (Re.punct_no_space (chr ":")) formatted_text in
    formatted_text
  end.

Definition add_spaces_after_materials (text : str) : str :=
  match text with
  | [] => text
  | _ =>
    let formatted_text := Re.sub (Re.letters_digits true) text in
    let formatted_text := Re.sub (Re.letters_digits false) formatted_text in
    formatted_text
  end.

(** The three passes at the end of [translate_text], in its order. *)
Definition normalize (text : str) : str :=
  add_spaces_after_materials
    (add_spacing_after_punctuation
       (convert_fullwidth_to_halfwidth text)).

Definition marker : char := chr "※".

Definition contains (c : char) (s : str) : bool := existsb (N.eqb c) s.

(** Index of the first line with the marker, [None] for the [-1] of
    the source. *)
Fixpoint first_asterisk_index (lines : list str) : option nat :=
  match lines with
  | [] => None
  | line :: rest =>
    if contains marker line then Some 0
    else option_map S (first_asterisk_index rest)
  end.

(** One turn of the loop over [care_and_country_lines]; the state is
    [(country, care_lines)]. *)
Definition country_step (st : str * list str) (line : str)
  : str * list str :=
  let '(country, care_lines) := st in
  if negb (str_eqb (strip line) [])
     && negb (startswith [marker] (strip line))
  then (strip line, care_lines)
  else (country, care_lines ++ [line]).

Definition split_materials_content (content : str) : str * str * str :=
  match content with
  | [] => ([], [], [])
  | _ =>
    let lines := split nl (strip content) in
    match first_asterisk_index lines with
    | None => (strip content, [], [])
    | Some i =>
      let materials_lines := take i lines in
      let care_and_country_lines := drop i lines in
      let materials := strip (join nl materials_lines) in
      let '(country, care_lines) :=
        fold_left country_step care_and_country_lines ([], []) in
      let care_instructions := strip (join nl care_lines) in
      (materials, care_instructions, country)
    end
  end.

(** Python values that can reach the two translation methods. *)
Inductive value :=
| VNone
| VBool (b : bool)
| VInt (z : Z)
| VStr (s : str).

Definition truthy (v : value) : bool :=
  match v with
  | VNone => false
  | VBool b => b
  | VInt z => negb (z =? 0)%Z
  | VStr s => negb (str_eqb s [])
  end.

Definition isinstance_str (v : value) : bool :=
  match v with
  | VStr _ => true
  | _ => false
  end.

Definition translate_care_instructions (t : translator)
    (care_instructions : value) : value :=
  if negb (truthy care_instructions)
     || negb (isinstance_str care_instructions)
  then care_instructions
  else
    match care_instructions with
    | VStr s => VStr (replace_all (sorted_by_len (care_labels t)) s)
    | _ => care_instructions
    end.

Definition is_japanese (c : char) : bool :=
  in_range 0x3040 0x309F c || in_range 0x30A0 0x30FF c
  || in_range 0x4E00 0x9FAF c.

(** The class [[0-9.,：:cm]]. *)
Definition is_measure_char (c : char) : bool :=
  is_ascii_digit c || contains c (lit ".,：:cm").

Definition is_unknown (d : dict) (term : str) : bool :=
  negb (has_key d term) && (1 <? length term)
  && negb (Re.match_all is_measure_char term).

Definition extract_japanese_terms (t : translator) (text : str)
  : gset str :=
  let terms : gset str := list_to_set (Re.findall is_japanese text) in
  filter (fun term => is_unknown (translations t) term = true) terms.

(** [learn_new_translation], the write to the file apart. *)
Definition learn_new_translation (t : translator) (japanese english : str)
  : translator :=
  Translator (dict_set (translations t) japanese english)
    (care_labels t) (unknown_terms t).

(** One turn of the loop over the lines of [translate_text]. *)
Definition translate_line (d : dict) (line : str) : str :=
  if str_eqb (strip line) [] then line
  else replace_all (sorted_by_len d) line.

(** [translate_text] answers its result and the translator with the
    unknown terms it has collected. *)
Definition translate_text (t : translator) (text : value)
    (interactive : bool) : value * translator :=
  if negb (truthy text) || negb (isinstance_str text) then (text, t)
  else
    match text with
    | VStr s =>
      let t' :=
        if interactive then
          let unknown := extract_japanese_terms t s in
          if bool_decide (unknown = ∅) then t
          else Translator (translations t) (care_labels t)
                 (unknown_terms t ∪ unknown)
        else t in
      let lines := split nl s in
      let translated_lines := map (translate_line (translations t)) lines in
      let translated_text := join nl translated_lines in
      (VStr (normalize translated_text), t')
    | _ => (text, t)
    end.

(** [row[i]] with Python's negative indices; [None] is [IndexError]. *)
Definition index {A} (row : list A) (i : Z) : option A :=
  if (0 <=? i)%Z then row !! Z.to_nat i
  else if (- Z.of_nat (length row) <=? i)%Z
       then row !! Z.to_nat (Z.of_nat (length row) + i)
       else None.

(** The body of the loop over the rows in [process_csv_file]: the
    record handed to [writer.writerow] and the translator afterwards,
    or [None] when the body raises. *)
Definition process_row (t : translator) (row : list str)
    (interactive : bool) (materials_column : Z)
  : option (list value * translator) :=
  match row with
  | [] => Some ([VStr []], t)
  | japanese_dimensions :: _ =>
    let '(english_dimensions, t1) :=
      translate_text t (VStr japanese_dimensions) interactive in
    if (materials_column <? Z.of_nat (length row))%Z then
      match index row materials_column with
      | None => None
      | Some full_materials_content =>
        let '(materials_content, care_instructions, country) :=
          split_materials_content full_materials_content in
        let '(materials_english, t2) :=
          translate_text t1 (VStr materials_content) interactive in
        let care_instructions_english :=
          translate_care_instructions t2 (VStr care_instructions) in
        Some ([VStr japanese_dimensions; english_dimensions;
               VStr materials_content; materials_english;
               VStr care_instructions; care_instructions_english;
               VStr country], t2)
      end
    else Some ([VStr japanese_dimensions; english_dimensions], t1)
  end.

(** [add_translation], the message apart. *)
Definition add_translation (t : translator) (japanese english : str)
  : translator :=
  Translator (dict_set (translations t) japanese english)
    (care_labels t) (unknown_terms t).

(** The object that [save_learned_translations] hands to [json.dump]:
    [dict(sorted(self.translations.items(), ...))]; the keys of the
    items are distinct, so the dict has them in the sorted order. *)
Definition save_learned_translations (t : translator) : dict :=
  sorted_by_len (translations t).

(** [load_learned_translations] when the file exists and holds the
    object [learned]: [self.translations.update(learned)]. *)
Definition load_learned_translations (t : translator) (learned : dict)
  : translator :=
  Translator (dict_update (translations t) learned)
    (care_labels t) (unknown_terms t).

(** [__init__] with the contents of the two files. *)
Definition init (learned care : dict) : translator :=
  load_learned_translations (Translator base_translations care ∅) learned.

(** The loop over the rows of [process_csv_file]: the records written,
    in order, or [None] when a row raises. *)
Fixpoint process_rows (t : translator) (rows : list (list str))
    (interactive : bool) (materials_column : Z)
  : option (list (list value) * translator) :=
  match rows with
  | [] => Some ([], t)
  | row :: rest =>
    match process_row t row interactive materials_column with
    | None => None
    | Some (record, t1) =>
      match process_rows t1 rest interactive materials_column with
      | None => None
      | Some (records, t2) => Some (record :: records, t2)
      end
    end
  end.

End Translator.

Import Translator.

(** ** Statements in the words of the specification

    Reference definitions that follow the specification's wording;
    the theorems compare them with the functions of the source. *)

Module Spec.

(** One pass over the text that puts one space behind every character
    [x] for which [f x r] holds, [r] being the text behind [x]; the
    spaces it puts are not looked at again. *)
Fixpoint insert_after (f : char -> str -> bool) (s : str) : str :=
  match s with
  | [] => []
  | x :: r =>
    if f x r then x :: space :: insert_after f r
    else x :: insert_after f r
  end.

Definition is_punct (c : char) : bool :=
  (c =? chr ")")%N || (c =? chr ",")%N || (c =? chr ":")%N.

Definition followed_by_space (r : str) : bool :=
  match r with
  | y :: _ => is_space y
  | [] => false
  end.

(** Punctuation spacing: one space behind [)], [,] and [:] wherever
    no white space follows. *)
Definition punct_f : char -> str -> bool :=
  fun x r => is_punct x && negb (followed_by_space r).

Definition punct_spaced (s : str) : str := insert_after punct_f s.

(** The reading of the claim: nothing either behind a character that
    ends the text. *)
Definition punct_spaced_as_claimed (s : str) : str :=
  insert_after
    (fun x r => is_punct x && negb (followed_by_space r)
                && negb (bool_decide (r = []))) s.

(** [t] is a maximal run of characters of the class [p] in [s]. *)
Definition maximal_run (p : char -> bool) (t s : str) : Prop :=
  t <> [] /\ Forall (fun c => p c = true) t /\
  exists a b, s = a ++ t ++ b
    /\ (forall x, last a = Some x -> p x = false)
    /\ (forall y, head b = Some y -> p y = false).

(** The characters of the search for unknown terms, by their code
    points: U+3040..U+30FF (the blocks Hiragana and Katakana) and
    U+4E00..U+9FAF (the CJK Unified Ideographs up to U+9FAF). *)
Definition in_searched_ranges (c : char) : Prop :=
  (0x3040 <= c <= 0x30FF)%N \/ (0x4E00 <= c <= 0x9FAF)%N.

Definition searched (c : char) : bool := bool_decide (in_searched_ranges c).

(** Hiragana, Katakana and Kanji: the blocks Hiragana, Katakana and
    Katakana Phonetic Extensions, the half-width Katakana, the CJK
    Unified Ideographs with their extensions A and B, the CJK
    Compatibility Ideographs and the iteration mark U+3005. *)
Definition kana_kanji (c : char) : bool :=
  in_range 0x3040 0x309F c
  || in_range 0x30A0 0x30FF c || in_range 0x31F0 0x31FF c
  || in_range 0xFF66 0xFF9F c
  || in_range 0x4E00 0x9FFF c || in_range 0x3400 0x4DBF c
  || in_range 0x20000 0x2A6DF c || in_range 0xF900 0xFAFF c
  || (c =? 0x3005)%N.

(** [t] is made of numbers and unit characters only. *)
Definition measure_only (t : str) : Prop :=
  t <> [] /\ Forall (fun c => is_measure_char c = true) t.

(** [t] is a piece of consecutive characters of [s]. *)
Definition substring (t s : str) : Prop := exists a b, s = a ++ t ++ b.

Definition proper_substring (t s : str) : Prop := substring t s /\ t <> s.

(** Longer keys first. *)
Definition longer_first (e1 e2 : str * str) : Prop :=
  length e2.1 <= length e1.1.

(** The entries that are applied before the entry of the term [k]. *)
Fixpoint entries_before (k : str) (entries : list (str * str))
  : list (str * str) :=
  match entries with
  | [] => []
  | e :: rest => if str_eqb e.1 k then [] else e :: entries_before k rest
  end.

Definition applied_before (d : dict) (k : str) : list (str * str) :=
  entries_before k (sorted_by_len d).

(** The entries that are applied after the entry of the term [k]. *)
Fixpoint entries_after (k : str) (entries : list (str * str))
  : list (str * str) :=
  match entries with
  | [] => []
  | e :: rest => if str_eqb e.1 k then rest else entries_after k rest
  end.

Definition applied_after (d : dict) (k : str) : list (str * str) :=
  entries_after k (sorted_by_len d).

(** Two texts that can lie across each other in a third: one holds
    the other, or an end piece of one is a beginning of the other. *)
Definition overlap (k u : str) : bool :=
  occurs k u || occurs u k
  || existsb (fun n => startswith (drop n k) u) (seq 1 (length k - 1))
  || existsb (fun n => startswith (drop n u) k) (seq 1 (length u - 1)).

(** An entry that cannot touch an occurrence of the text [tl]: a term
    mapped to itself, or a term that cannot lie across [tl]. *)
Definition apart (tl : str) (e : str * str) : bool :=
  str_eqb e.1 e.2 || negb (overlap e.1 tl).

(** Runs of half-width digits, and texts without any. *)
Definition digits (run : str) : Prop :=
  Forall (fun c => is_ascii_digit c = true) run.

Definition digit_free (s : str) : Prop :=
  Forall (fun c => is_ascii_digit c = false) s.

(** Entries that cannot touch a digit: a term mapped to itself, or a
    non-empty term without digits. *)
Definition digit_safe (e : str * str) : bool :=
  str_eqb e.1 e.2
  || (negb (str_eqb e.1 []) && forallb (fun c => negb (is_ascii_digit c)) e.1).

(** The lines that the loop of [split_materials_content] keeps for
    the care text: the blank ones and those that start with the
    marker; every other line only overwrites the country. *)
Definition is_care_line (line : str) : bool :=
  str_eqb (strip line) [] || startswith [marker] (strip line).

(** What the full-width table makes of one character: the value of the
    first entry for it, or the character itself. *)
Fixpoint subst_char (table : list (str * str)) (c : char) : str :=
  match table with
  | [] => [c]
  | e :: rest => if str_eqb e.1 [c] then e.2 else subst_char rest c
  end.

Definition halfwidth_of (c : char) : str :=
  subst_char fullwidth_to_halfwidth c.

(** The full-width digits and Latin letters. *)
Definition fullwidth_alnum : list N :=
  map (fun i => 0xFF10 + N.of_nat i)%N (seq 0 10)
  ++ map (fun i => 0xFF21 + N.of_nat i)%N (seq 0 26)
  ++ map (fun i => 0xFF41 + N.of_nat i)%N (seq 0 26).

(** The text of a string value, empty for any other value. *)
Definition value_str (v : value) : str :=
  match v with
  | VStr s => s
  | _ => []
  end.

(** The number of line feeds of a text. *)
Definition count_nl (s : str) : nat :=
  length (List.filter (fun c => (c =? nl)%N) s).

(** The text without its spaces (U+0020). *)
Definition without_spaces (s : str) : str :=
  List.filter (fun c => negb (c =? space)%N) s.

End Spec.

Import Spec.

(** ** The conditions of the spacing passes

    Each substitution of the two spacing functions puts a space
    behind a character under a condition on the text that follows. *)

Module Gaps.

(** [c(?![\s\n])] *)
Definition punct_gap (c : char) : char -> str -> bool :=
  fun x r => (x =? c)%N && negb (Re.next_is_space r).

(** The same for a class [P] of characters. *)
Definition class_gap (P : char -> bool) : char -> str -> bool :=
  fun x r => P x && negb (Re.next_is_space r).

Definition next_is_decimal (r : str) : bool :=
  match r with
  | y :: _ => is_decimal y
  | [] => false
  end.

Definition next_is_percent (r : str) : bool :=
  match r with
  | y :: _ => (y =? Re.percent)%N
  | [] => false
  end.

(** The condition behind a run of letters for a space at its end. *)
Definition gap_behind (with_percent : bool) (r : str) : bool :=
  next_is_decimal r
  && (if with_percent
      then next_is_percent (Re.dropwhile is_decimal r) else true).

(** [([A-Za-z]+)(\d+%)] and [([A-Za-z]+)(\d+)] *)
Definition letter_gap (with_percent : bool) : char -> str -> bool :=
  fun x r =>
    is_ascii_letter x && next_is_decimal r
    && (if with_percent
        then next_is_percent (Re.dropwhile is_decimal r) else true).

(** Conditions on a character and the one behind it. *)
Definition punct_h (x : char) (o : option char) : bool :=
  is_punct x && negb (from_option is_space false o).

Definition letter_h (x : char) (o : option char) : bool :=
  is_ascii_letter x && from_option is_decimal false o.

(** A text in which the pass of [f] has nothing to insert. *)
Fixpoint settled (f : char -> str -> bool) (s : str) : Prop :=
  match s with
  | [] => True
  | x :: r => f x r = false /\ settled f r
  end.

(** Characters of the keys of the full-width table. *)
Definition is_fullwidth (c : char) : bool :=
  existsb (fun e => str_eqb e.1 [c]) fullwidth_to_halfwidth.

(** A text that the three passes keep as it is wherever it stands: no
    key of the full-width table, none of [)], [,], [:] in front of a
    character of it that is no white space, no letter in front of a
    decimal digit of it. *)
Fixpoint steady (u : str) : bool :=
  match u with
  | [] => true
  | x :: r =>
    negb (is_fullwidth x)
    && match r with
       | [] => true
       | y :: _ =>
         negb (is_punct x && negb (is_space y))
         && negb (is_ascii_letter x && is_decimal y)
       end
    && steady r
  end.

(** An entry replaces one character by text outside the class [K]. *)
Definition clearing (K : char -> bool) (e : str * str) : Prop :=
  exists k, e.1 = [k] /\ Forall (fun c => K c = false) e.2.

Definition single_key (e : str * str) : bool :=
  match e.1 with
  | [k] => is_fullwidth k && forallb (fun c => negb (is_fullwidth c)) e.2
  | _ => false
  end.

End Gaps.

Import Gaps.

(** ** Translators and cells used as concrete inputs *)

Module Examples.

(** A text given line by line. *)
Definition text_of (lines : list String.string) : str :=
  join nl (map lit lines).

(** The built-in dictionary alone: no learned terms, no care labels. *)
Definition builtin : translator := Translator base_translations [] ∅.

(** The dictionary after [learned_translations.json] has been merged
    into the built-in table by [load_learned_translations]. *)
Definition with_learned (learned : list (String.string * String.string))
  : translator :=
  Translator (dict_update base_translations (map entry learned)) [] ∅.

Definition sleeves : translator :=
  with_learned [("七分袖", "Three-Quarter Sleeve")]%string.

(** A dictionary with a term in Latin letters that is tried after
    総丈 and before 丈. *)
Definition latin_term : translator :=
  Translator
    (map entry [("総丈", "Total Length"); ("To", "XX"); ("丈", "Length")]%string)
    [] ∅.

(** A dictionary whose translation of 総丈 has a colon in front of a
    letter. *)
Definition colon_translation : translator :=
  Translator
    (map entry [("総丈", "Total:Length"); ("丈", "Length")]%string) [] ∅.

Definition zero_learned : translator :=
  with_learned [("0", "zero")]%string.

(** A translator with one care label. *)
Definition laundry : translator :=
  Translator base_translations [entry ("手洗い", "Hand wash")%string] ∅.

End Examples.

Import Examples.

(** ** Strings: prefixes, occurrences, scanning *)

Section Strings.

Implicit Types (s p old new : str) (c : char).

Lemma str_eqb_eq (a b : str) : str_eqb a b = true <-> a = b.
Proof. unfold str_eqb. apply bool_decide_eq_true. Qed.

Lemma str_eqb_neq (a b : str) : str_eqb a b = false <-> a <> b.
Proof. unfold str_eqb. apply bool_decide_eq_false. Qed.

Lemma startswith_app p r : startswith p (p ++ r) = true.
Proof.
  induction p as [|a p IH]; simpl; [done|].
  rewrite N.eqb_refl. exact IH.
Qed.

Lemma startswith_inv p s : startswith p s = true -> s = p ++ drop (length p) s.
Proof.
  revert s. induction p as [|a p IH]; intros [|b s]; simpl; try done.
  intros [Hab Hps]%andb_prop. apply N.eqb_eq in Hab as ->.
  f_equal. by apply IH.
Qed.

Lemma startswith_spec p s : startswith p s = true <-> exists r, s = p ++ r.
Proof.
  split.
  - intros H. eexists. by apply startswith_inv.
  - intros [r ->]. apply startswith_app.
Qed.

Lemma occurs_spec p s :
  occurs p s = true <-> exists a b, s = a ++ p ++ b.
Proof.
  induction s as [|x s IH]; simpl.
  - rewrite orb_false_r, startswith_spec. split.
    + intros [r Hr]. exists [], r. exact Hr.
    + intros (a & b & H). destruct a as [|? ?]; [|done].
      exists b. exact H.
  - rewrite orb_true_iff, startswith_spec, IH. split.
    + intros [[r Hr]|(a & b & ->)].
      * exists [], r. exact Hr.
      * by exists (x :: a), b.
    + intros (a & b & H). destruct a as [|y a].
      * left. by exists b.
      * right. injection H as -> ->. by exists a, b.
Qed.

Lemma occurs_tail p x s : occurs p (x :: s) = false -> occurs p s = false.
Proof. simpl. by intros [_ ?]%orb_false_elim. Qed.

Lemma occurs_head p s : occurs p s = false -> startswith p s = false.
Proof. destruct s; simpl; by intros [? _]%orb_false_elim. Qed.

Lemma scan_nil m k : scan m k [] = [].
Proof. by destruct k. Qed.

Lemma scan_skip m k s : scan m k s = scan m 0 (drop k s).
Proof.
  revert k. induction s as [|x s IH]; intros [|k]; try done.
  simpl. apply IH.
Qed.

(** A pattern that matches nowhere leaves the text as it is. *)
Lemma scan_no_match m s :
  (forall a b, s = a ++ b -> b <> [] -> m b = None) -> scan m 0 s = s.
Proof.
  induction s as [|x s IH]; intros H; [done|]. simpl.
  rewrite (H [] (x :: s)); [|done..]. f_equal. apply IH.
  intros a b -> Hb. by apply (H (x :: a) b).
Qed.

Lemma replace_absent old new s : occurs old s = false -> replace old new s = s.
Proof.
  destruct old as [|o old]; [by destruct s|].
  intros H. unfold replace. apply scan_no_match. intros a b -> Hb.
  unfold literal.
  assert (occurs (o :: old) b = false) as Hocc.
  { clear Hb. induction a as [|y a IH]; [done|].
    apply IH. by apply occurs_tail in H. }
  by rewrite (occurs_head _ _ Hocc).
Qed.

(** A match of a non-empty [old] at the head. *)
Lemma replace_head old new r :
  old <> [] -> replace old new (old ++ r) = new ++ replace old new r.
Proof.
  destruct old as [|o old]; [done|]. intros _. unfold replace.
  change ((o :: old) ++ r) with (o :: (old ++ r)).
  cbn [scan]. unfold literal at 1.
  change (o :: old ++ r) with ((o :: old) ++ r).
  rewrite startswith_app. cbn [length pred]. f_equal.
  rewrite scan_skip. by rewrite drop_app_length.
Qed.

Lemma replace_step old new x s :
  old <> [] -> startswith old (x :: s) = false ->
  replace old new (x :: s) = x :: replace old new s.
Proof.
  destruct old as [|o old]; [done|]. intros _ H. unfold replace.
  cbn [scan]. unfold literal at 1. by rewrite H.
Qed.

End Strings.

(** ** Character classes *)

Section Classes.

Implicit Types (c : char).

Lemma in_range_spec lo hi c :
  in_range lo hi c = true <-> (lo <= c /\ c <= hi)%N.
Proof. unfold in_range. rewrite andb_true_iff, !N.leb_le. done. Qed.

Lemma in_range_false lo hi c :
  in_range lo hi c = false <-> (c < lo \/ hi < c)%N.
Proof. unfold in_range. rewrite andb_false_iff, !N.leb_gt. done. Qed.

Lemma existsb_none {A} (f : A -> bool) (l : list A) :
  Forall (fun x => f x = false) l -> existsb f l = false.
Proof. induction 1 as [|x l Hx _ IH]; simpl; [done|]. by rewrite Hx, IH. Qed.

(** Below U+0660 the class [\d] is [0-9]. *)
Lemma is_decimal_low c : (c < 0x660)%N -> is_decimal c = is_ascii_digit c.
Proof.
  intros Hc. unfold is_decimal, is_ascii_digit.
  unfold decimal_zeros.
  match goal with
  | |- existsb ?f (?z :: ?l) || ?b = _ =>
    change (existsb f (z :: l)) with (f z || existsb f l);
    assert (existsb f l = false) as ->; [|assert (b = false) as ->]
  end.
  - apply existsb_none.
    assert (forall z, (0x660 <=? z)%N = true ->
              in_range z (z + 9) c = false) as Hz.
    { intros z Hz%N.leb_le. apply in_range_false. lia. }
    repeat (first [apply Forall_nil_2 | apply Forall_cons_2]);
      by apply Hz.
  - apply in_range_false. lia.
  - by rewrite !orb_false_r.
Qed.

Lemma letter_not_decimal c : is_ascii_letter c = true -> is_decimal c = false.
Proof.
  unfold is_ascii_letter. rewrite orb_true_iff, !in_range_spec. intros H.
  rewrite is_decimal_low by lia. apply in_range_false. lia.
Qed.

Lemma decimal_not_letter c : is_decimal c = true -> is_ascii_letter c = false.
Proof.
  intros H. destruct (is_ascii_letter c) eqn:E; [|done].
  apply letter_not_decimal in E. congruence.
Qed.

Lemma ascii_digit_decimal c : is_ascii_digit c = true -> is_decimal c = true.
Proof.
  intros H. rewrite is_decimal_low; [done|].
  apply in_range_spec in H. lia.
Qed.

Lemma ascii_digit_not_letter c :
  is_ascii_digit c = true -> is_ascii_letter c = false.
Proof. intros H. by apply decimal_not_letter, ascii_digit_decimal. Qed.

Lemma nl_is_space : is_space nl = true.
Proof. reflexivity. Qed.

Lemma next_is_space_spec r : Re.next_is_space r = followed_by_space r.
Proof.
  destruct r as [|y r]; [done|]. simpl.
  destruct (N.eqb_spec y nl) as [->|]; [|by rewrite orb_false_r].
  by rewrite nl_is_space.
Qed.

End Classes.

(** ** The spacing passes as insertions *)

Section Insertion.

Implicit Types (s r ds ls : str) (x c : char) (f g : char -> str -> bool).

Lemma insert_after_ext f g s :
  (forall a x r, s = a ++ x :: r -> f x r = g x r) ->
  insert_after f s = insert_after g s.
Proof.
  induction s as [|x s IH]; intros H; [done|]. simpl.
  rewrite (H [] x s eq_refl), IH; [done|].
  intros a y r ->. by apply (H (x :: a)).
Qed.

Lemma insert_after_id f s :
  (forall a x r, s = a ++ x :: r -> f x r = false) -> insert_after f s = s.
Proof.
  induction s as [|x s IH]; intros H; [done|]. simpl.
  rewrite (H [] x s eq_refl), IH; [done|].
  intros a y r ->. by apply (H (x :: a)).
Qed.

Lemma insert_after_app_false f a r :
  (forall a1 x a2, a = a1 ++ x :: a2 -> f x (a2 ++ r) = false) ->
  insert_after f (a ++ r) = a ++ insert_after f r.
Proof.
  induction a as [|y a IH]; intros H; [done|]. simpl.
  rewrite (H [] y a eq_refl). f_equal. apply IH.
  intros a1 x a2 ->. by apply (H (y :: a1)).
Qed.


Lemma sub_punct c s :
  Re.sub (Re.punct_no_space c) s = insert_after (punct_gap c) s.
Proof.
  unfold Re.sub. induction s as [|x s IH]; [done|].
  cbn [scan insert_after]. unfold Re.punct_no_space at 1, punct_gap at 1.
  destruct ((x =? c)%N && negb (Re.next_is_space s)) eqn:E.
  - apply andb_prop in E as [->%N.eqb_eq _]. simpl. by rewrite IH.
  - by rewrite IH.
Qed.




Lemma takewhile_dropwhile p s : Re.takewhile p s ++ Re.dropwhile p s = s.
Proof. induction s as [|x s IH]; simpl; [done|]. destruct (p x); simpl; by f_equal. Qed.

Lemma takewhile_all p s : Forall (fun c => p c = true) (Re.takewhile p s).
Proof.
  induction s as [|x s IH]; simpl; [constructor|].
  destruct (p x) eqn:E; by constructor.
Qed.

Lemma dropwhile_head p s y r : Re.dropwhile p s = y :: r -> p y = false.
Proof.
  induction s as [|x s IH]; simpl; [done|].
  destruct (p x) eqn:E; [done|]. by intros [= <- _].
Qed.

Lemma percent_not_decimal : is_decimal Re.percent = false.
Proof. reflexivity. Qed.

Lemma percent_not_letter : is_ascii_letter Re.percent = false.
Proof. reflexivity. Qed.

Lemma space_not_letter : is_ascii_letter space = false.
Proof. reflexivity. Qed.

Lemma space_not_decimal : is_decimal space = false.
Proof. reflexivity. Qed.

Lemma letter_gap_not_letter b x r : is_ascii_letter x = false -> letter_gap b x r = false.
Proof. unfold letter_gap. by intros ->. Qed.

(** Over a run of digits nothing is inserted. *)
Lemma insert_after_digits b ds r :
  Forall (fun c => is_decimal c = true) ds ->
  insert_after (letter_gap b) (ds ++ r) = ds ++ insert_after (letter_gap b) r.
Proof.
  intros Hg. apply insert_after_app_false. intros a1 x a2 ->.
  apply letter_gap_not_letter, decimal_not_letter.
  apply Forall_app in Hg as [_ Hg]. by apply Forall_cons in Hg as [? _].
Qed.

(** Over a run of letters the only place for a space is its end. *)
Lemma insert_after_letters b ls x r :
  Forall (fun c => is_ascii_letter c = true) ls ->
  is_ascii_letter x = true ->
  insert_after (letter_gap b) (ls ++ x :: r)
  = ls ++ insert_after (letter_gap b) (x :: r).
Proof.
  intros Hg Hx. apply insert_after_app_false. intros a1 y a2 ->.
  unfold letter_gap.
  assert (next_is_decimal (a2 ++ x :: r) = false) as ->;
    [|by rewrite andb_false_r].
  destruct a2 as [|z a2]; simpl.
  - by apply letter_not_decimal.
  - apply letter_not_decimal.
    apply Forall_app in Hg as [_ Hg]. apply Forall_cons in Hg as [_ Hg].
    by apply Forall_cons in Hg as [? _].
Qed.

End Insertion.

Section LettersDigits.

Implicit Types (s r ds ls : str) (x c : char) (b : bool).

Lemma dropwhile_app p ls r :
  Forall (fun c => p c = true) ls ->
  Re.dropwhile p (ls ++ r) = Re.dropwhile p r.
Proof. induction 1 as [|x ls Hx _ IH]; simpl; [done|]. by rewrite Hx. Qed.

Lemma drop_app3 {A} (a b c d : list A) :
  drop (length (a ++ b ++ c)) (a ++ b ++ c ++ d) = d.
Proof.
  rewrite (app_assoc b c d), (app_assoc a (b ++ c) d). by rewrite drop_app_length.
Qed.


Lemma insert_after_run b ls r :
  Forall (fun c => is_ascii_letter c = true) ls -> ls <> [] ->
  insert_after (letter_gap b) (ls ++ r)
  = ls ++ (if gap_behind b r then [space] else [])
       ++ insert_after (letter_gap b) r.
Proof.
  induction 1 as [|x ls Hx Hls IH]; intros Hne; [done|].
  destruct ls as [|y ls].
  - simpl. unfold letter_gap at 1, gap_behind. rewrite Hx. simpl.
    by destruct (next_is_decimal r && _).
  - change ((x :: y :: ls) ++ r) with (x :: (y :: ls) ++ r).
    cbn [insert_after]. unfold letter_gap at 1. simpl next_is_decimal.
    apply Forall_cons in Hls as Hy. destruct Hy as [Hy _].
    rewrite (letter_not_decimal _ Hy), andb_false_r. simpl.
    f_equal. by apply IH.
Qed.

(** What a match of the letter and digit patterns looks like. *)
Lemma letters_digits_some b s repl n :
  Re.letters_digits b s = Some (repl, n) ->
  exists ls ds r,
    let p := if b then [Re.percent] else [] in
    s = ls ++ ds ++ p ++ r
    /\ repl = ls ++ space :: ds ++ p
    /\ n = length (ls ++ ds ++ p)
    /\ Forall (fun c => is_ascii_letter c = true) ls /\ ls <> []
    /\ Forall (fun c => is_decimal c = true) ds /\ ds <> [].
Proof.
  unfold Re.letters_digits.
  pose proof (takewhile_dropwhile is_ascii_letter s) as Hs.
  pose proof (takewhile_all is_ascii_letter s) as Hls.
  set (ls := Re.takewhile is_ascii_letter s) in *.
  set (r1 := Re.dropwhile is_ascii_letter s) in *.
  pose proof (takewhile_dropwhile is_decimal r1) as Hr1.
  pose proof (takewhile_all is_decimal r1) as Hds.
  set (ds := Re.takewhile is_decimal r1) in *.
  set (r2 := Re.dropwhile is_decimal r1) in *.
  destruct ls as [|l0 ls'] eqn:Els; [done|].
  destruct ds as [|d0 ds'] eqn:Eds; [done|].
  destruct b.
  - destruct r2 as [|y r2'] eqn:Er2; [done|].
    destruct (N.eqb_spec y Re.percent) as [->|]; [|done].
    intros [= <- <-]. exists (l0 :: ls'), (d0 :: ds'), r2'. cbn zeta.
    repeat split; try done.
    + by rewrite <- Hs, <- Hr1.
    + simpl. repeat (rewrite length_app; simpl). lia.
  - intros [= <- <-]. exists (l0 :: ls'), (d0 :: ds'), r2. cbn zeta.
    repeat split; try done.
    + by rewrite <- Hs, <- Hr1.
    + by rewrite app_nil_r.
    + rewrite app_nil_r. by rewrite length_app.
Qed.

Lemma letters_digits_none b x r :
  Re.letters_digits b (x :: r) = None -> letter_gap b x r = false.
Proof.
  unfold Re.letters_digits, letter_gap.
  destruct (is_ascii_letter x) eqn:Hx; [|done].
  cbn [Re.takewhile Re.dropwhile]. rewrite Hx.
  destruct r as [|y r]; [done|].
  cbn [Re.takewhile Re.dropwhile next_is_decimal].
  destruct (is_ascii_letter y) eqn:Hy.
  { intros _. by rewrite (letter_not_decimal _ Hy). }
  cbn [Re.takewhile Re.dropwhile].
  destruct (is_decimal y) eqn:Hd; [|done].
  cbn [andb]. destruct b; [|done].
  destruct (Re.dropwhile is_decimal r) as [|z r2]; [done|].
  simpl. by destruct (z =? Re.percent)%N.
Qed.

Lemma sub_letters_digits b s :
  Re.sub (Re.letters_digits b) s = insert_after (letter_gap b) s.
Proof.
  unfold Re.sub.
  remember (length s) as n eqn:Hn.
  revert s Hn. induction n as [n IH] using lt_wf_ind. intros s Hn.
  destruct s as [|x r]; [done|]. cbn [scan].
  destruct (Re.letters_digits b (x :: r)) as [[repl k]|] eqn:Em.
  - apply letters_digits_some in Em as (ls & ds & r2 & Em).
    cbn zeta in Em. destruct Em as (Hs & -> & -> & Hls & Hne & Hds & Hde).
    rewrite scan_skip.
    match goal with
    | |- context [drop ?k r] => assert (drop k r = r2) as ->
    end.
    { destruct ls as [|l0 ls]; [done|]. injection Hs as -> ->.
      simpl. apply drop_app3. }
    rewrite (IH (length r2)); [| |done].
    2:{ subst n. rewrite Hs. rewrite !length_app.
        destruct ls; [done|]. simpl. lia. }
    rewrite Hs. rewrite insert_after_run by done.
    assert (gap_behind b (ds ++ (if b then [Re.percent] else []) ++ r2)
            = true) as ->.
    { unfold gap_behind. destruct ds as [|d0 ds]; [done|].
      apply Forall_cons in Hds as Hd0. destruct Hd0 as [Hd0 _].
      simpl next_is_decimal. rewrite Hd0. destruct b; [|done].
      by rewrite dropwhile_app by done. }
    rewrite insert_after_digits by done.
    rewrite <- !app_assoc. f_equal. simpl. f_equal.
    rewrite <- app_assoc. f_equal.
    destruct b; [|done]. cbn [app insert_after].
    by rewrite (letter_gap_not_letter _ _ _ percent_not_letter).
  - cbn [insert_after]. rewrite (letters_digits_none _ _ _ Em).
    f_equal. apply (IH (length r)); [|done]. subst n. simpl. lia.
Qed.

End LettersDigits.

(** ** Punctuation spacing *)

Section Punctuation.

Implicit Types (s r : str) (x c : char) (f g : char -> str -> bool).

Lemma insert_after_head f s : head (insert_after f s) = head s.
Proof. destruct s as [|x r]; [done|]. simpl. by destruct (f x r). Qed.

Lemma next_is_space_head r r' : head r = head r' -> Re.next_is_space r = Re.next_is_space r'.
Proof. destruct r, r'; simpl; try done. by intros [= ->]. Qed.

Lemma next_is_space_insert f r : Re.next_is_space (insert_after f r) = Re.next_is_space r.
Proof. apply next_is_space_head, insert_after_head. Qed.


Lemma space_next_is_space r : Re.next_is_space (space :: r) = true.
Proof. reflexivity. Qed.

(** Two passes, the second for one more character, are one pass. *)
Lemma class_gap_compose (P : char -> bool) c s :
  P c = false -> c <> space ->
  insert_after (punct_gap c) (insert_after (class_gap P) s)
  = insert_after (class_gap (fun x => P x || (x =? c)%N)) s.
Proof.
  intros HPc Hc. unfold class_gap, punct_gap.
  assert ((space =? c)%N = false) as Hsp by by apply N.eqb_neq.
  induction s as [|x r IH]; [done|].
  cbn [insert_after].
  destruct (P x) eqn:HPx; cbn [orb andb].
  - assert ((x =? c)%N = false) as Hxc.
    { apply N.eqb_neq. intros ->. congruence. }
    destruct (negb (Re.next_is_space r)) eqn:Hr;
      cbn [insert_after]; rewrite Hxc, ?Hsp; cbn [andb]; by rewrite IH.
  - cbn [insert_after]. rewrite next_is_space_insert.
    destruct ((x =? c)%N && negb (Re.next_is_space r)); by rewrite IH.
Qed.

Lemma punct_gap_class c s :
  insert_after (punct_gap c) s = insert_after (class_gap (fun x => (x =? c)%N)) s.
Proof. done. Qed.

(** The function of the source as three passes, one per character. *)
Lemma add_spacing_after_punctuation_passes s :
  add_spacing_after_punctuation s
  = insert_after (punct_gap (chr ":"))
      (insert_after (punct_gap (chr ","))
         (insert_after (punct_gap (chr ")")) s)).
Proof.
  destruct s as [|x r]; [done|].
  unfold add_spacing_after_punctuation. cbn zeta. by rewrite !sub_punct.
Qed.

(** The three passes are one pass for the three characters. *)
Lemma punct_passes s :
  insert_after (punct_gap (chr ":"))
    (insert_after (punct_gap (chr ","))
       (insert_after (punct_gap (chr ")")) s))
  = punct_spaced s.
Proof.
  rewrite (punct_gap_class (chr ")")).
  rewrite !class_gap_compose by done.
  unfold punct_spaced. apply insert_after_ext. intros a y r' _.
  unfold class_gap, punct_f, is_punct. by rewrite next_is_space_spec.
Qed.

End Punctuation.

(** ** The full-width table *)

Section Fullwidth.

Implicit Types (s r v : str) (x c k : char) (T : list (str * str)).

(** Replacing a single character is a character-wise substitution. *)
Lemma replace_char k v s :
  replace [k] v s = flat_map (fun c => if (c =? k)%N then v else [c]) s.
Proof.
  induction s as [|x s IH]; [done|]. cbn [flat_map].
  destruct (N.eqb_spec x k) as [->|Hne].
  - change (k :: s) with ([k] ++ s).
    rewrite (replace_head [k] v s) by done. by rewrite IH.
  - rewrite replace_step; [by rewrite IH|done|].
    simpl. apply N.eqb_neq in Hne. rewrite N.eqb_sym in Hne.
    by rewrite Hne.
Qed.

Lemma replace_char_absent k v s :
  Forall (fun c => c <> k) s -> replace [k] v s = s.
Proof.
  rewrite replace_char. induction 1 as [|x s Hx _ IH]; [done|].
  cbn [flat_map]. apply N.eqb_neq in Hx. by rewrite Hx, IH.
Qed.



Lemma replace_all_clears (K : char -> bool) T s :
  Forall (clearing K) T ->
  Forall (fun c => K c = true -> [c] ∈ keys T) s ->
  Forall (fun c => K c = false) (replace_all T s).
Proof.
  intros HT. revert s. induction HT as [|[k0 v] T (k & Hk & Hv) _ IH];
    intros s Hs.
  - simpl. eapply Forall_impl; [exact Hs|]. intros c Hc. simpl in Hc.
    destruct (K c); [|done]. exfalso. specialize (Hc eq_refl).
    by apply elem_of_nil in Hc.
  - simpl in Hk, Hv. subst k0. cbn [replace_all fold_left]. apply IH.
    cbn [fst snd]. rewrite replace_char.
    induction Hs as [|x s Hx _ IHs]; [constructor|].
    cbn [flat_map]. apply Forall_app. split; [|exact IHs].
    destruct (N.eqb_spec x k) as [->|Hne].
    + eapply Forall_impl; [exact Hv|]. intros c Hc. simpl in Hc.
      congruence.
    + constructor; [|constructor]. intros HK. specialize (Hx HK).
      cbn [keys map fst] in Hx. apply elem_of_cons in Hx as [[=]|Hx]; done.
Qed.

Lemma replace_all_untouched (K : char -> bool) T s :
  Forall (fun e => exists k, e.1 = [k] /\ K k = true) T ->
  Forall (fun c => K c = false) s ->
  replace_all T s = s.
Proof.
  intros HT Hs. induction HT as [|[k0 v] T (k & Hk & HK) _ IH]; [done|].
  simpl in Hk. subst k0. cbn [replace_all fold_left fst snd].
  rewrite replace_char_absent; [exact IH|].
  eapply Forall_impl; [exact Hs|]. intros c Hc. simpl in Hc.
  intros ->. congruence.
Qed.


Lemma fullwidth_table_single :
  forallb single_key fullwidth_to_halfwidth = true.
Proof. vm_compute. reflexivity. Qed.

Lemma single_key_spec e :
  single_key e = true ->
  clearing is_fullwidth e /\ exists k, e.1 = [k] /\ is_fullwidth k = true.
Proof.
  unfold single_key, clearing. destruct e as [[|k [|? ?]] v]; simpl; try done.
  intros [Hk Hv]%andb_prop. split; exists k; split; try done.
  apply Forall_forall. intros c Hc.
  rewrite forallb_forall in Hv. apply negb_true_iff, Hv.
  by apply list_elem_of_In.
Qed.

Lemma is_fullwidth_key c : is_fullwidth c = true -> [c] ∈ keys fullwidth_to_halfwidth.
Proof.
  unfold is_fullwidth. generalize fullwidth_to_halfwidth as l.
  induction l as [|e l IH]; simpl; [done|].
  intros [H|H]%orb_prop.
  - apply str_eqb_eq in H. rewrite H. apply list_elem_of_here.
  - apply list_elem_of_further. by apply IH.
Qed.

Lemma convert_clears s :
  Forall (fun c => is_fullwidth c = false) (convert_fullwidth_to_halfwidth s).
Proof.
  destruct s as [|x r]; [constructor|].
  unfold convert_fullwidth_to_halfwidth. apply replace_all_clears.
  - pose proof fullwidth_table_single as H. rewrite forallb_forall in H.
    apply Forall_forall. intros e He. apply single_key_spec, H.
    by apply list_elem_of_In.
  - apply Forall_forall. intros c _. apply is_fullwidth_key.
Qed.

Lemma convert_untouched s :
  Forall (fun c => is_fullwidth c = false) s ->
  convert_fullwidth_to_halfwidth s = s.
Proof.
  intros Hs. destruct s as [|x r]; [done|].
  unfold convert_fullwidth_to_halfwidth.
  apply (replace_all_untouched is_fullwidth); [|done].
  pose proof fullwidth_table_single as H. rewrite forallb_forall in H.
  apply Forall_forall. intros e He. apply single_key_spec, H.
  by apply list_elem_of_In.
Qed.

Lemma insert_after_Forall (P : char -> Prop) f s :
  P space -> Forall P s -> Forall P (insert_after f s).
Proof.
  intros Hsp. induction 1 as [|x r Hx _ IH]; [constructor|].
  simpl. destruct (f x r); repeat constructor; done.
Qed.

End Fullwidth.

(** ** Settled texts: nothing left to insert *)

Section Settled.

Implicit Types (s r : str) (x c : char) (f g : char -> str -> bool).


Lemma settled_id f s : settled f s -> insert_after f s = s.
Proof.
  induction s as [|x r IH]; [done|]. simpl. intros [-> Hr].
  by rewrite IH.
Qed.

Lemma settled_impl f g s :
  (forall x r, f x r = false -> g x r = false) -> settled f s -> settled g s.
Proof. intros H. induction s as [|x r IH]; [done|]. simpl. intros [? ?]. auto. Qed.

(** Conditions that look at a character and at the one behind it. *)
Variable h : char -> option char -> bool.
Hypothesis h_before_space : forall x, h x (Some space) = false.
Hypothesis h_space : forall o, h space o = false.

Let local : char -> str -> bool := fun x r => h x (head r).

Lemma settled_insert_after s : settled local (insert_after local s).
Proof using h_before_space h_space.
  induction s as [|x r IH]; [done|]. simpl.
  destruct (local x r) eqn:E; simpl.
  - split; [apply h_before_space|]. split; [apply h_space|done].
  - split; [|done]. unfold local in *. by rewrite insert_after_head.
Qed.

Lemma settled_preserved g s :
  settled local s -> settled local (insert_after g s).
Proof using h_before_space h_space.
  induction s as [|x r IH]; [done|]. simpl. intros [Hx Hr].
  destruct (g x r); simpl.
  - split; [apply h_before_space|]. split; [apply h_space|auto].
  - split; [|auto]. unfold local in *. by rewrite insert_after_head.
Qed.

End Settled.

(** ** Normalization *)

Section Normalize.

Implicit Types (s r : str) (x c : char).




Lemma punct_local x r : punct_f x r = punct_h x (head r).
Proof. by destruct r. Qed.

Lemma letter_local x r : letter_gap false x r = letter_h x (head r).
Proof. unfold letter_gap, letter_h. destruct r; simpl; by rewrite andb_true_r. Qed.

Lemma punct_h_before_space x : punct_h x (Some space) = false.
Proof. unfold punct_h. simpl. by rewrite andb_false_r. Qed.

Lemma punct_h_space o : punct_h space o = false.
Proof. done. Qed.

Lemma letter_h_before_space x : letter_h x (Some space) = false.
Proof. unfold letter_h. simpl. by rewrite andb_false_r. Qed.

Lemma letter_h_space o : letter_h space o = false.
Proof. done. Qed.

Lemma settled_ext f g s :
  (forall x r, f x r = g x r) -> settled f s <-> settled g s.
Proof.
  intros H. split; apply settled_impl; intros x r; by rewrite H.
Qed.

Lemma insert_after_ext_all f g s :
  (forall x r, f x r = g x r) -> insert_after f s = insert_after g s.
Proof. intros H. apply insert_after_ext. intros _ x r _. apply H. Qed.

Lemma punct_spaced_settled s : settled punct_f (punct_spaced s).
Proof.
  unfold punct_spaced.
  rewrite (insert_after_ext_all punct_f _ s punct_local).
  apply (settled_ext _ _ _ punct_local).
  apply settled_insert_after; [apply punct_h_before_space|apply punct_h_space].
Qed.

Lemma punct_settled_preserved g s :
  settled punct_f s -> settled punct_f (insert_after g s).
Proof.
  intros H. apply (settled_ext _ _ _ punct_local).
  apply settled_preserved;
    [apply punct_h_before_space|apply punct_h_space|].
  by apply (settled_ext _ _ _ punct_local).
Qed.

Lemma letter_settled s : settled (letter_gap false) (insert_after (letter_gap false) s).
Proof.
  rewrite (insert_after_ext_all (letter_gap false) _ s letter_local).
  apply (settled_ext _ _ _ letter_local).
  apply settled_insert_after;
    [apply letter_h_before_space|apply letter_h_space].
Qed.

Lemma letter_gap_weaken x r :
  letter_gap false x r = false -> letter_gap true x r = false.
Proof.
  unfold letter_gap. rewrite andb_true_r. intros ->. done.
Qed.

Lemma add_spaces_after_materials_insert s :
  add_spaces_after_materials s
  = insert_after (letter_gap false) (insert_after (letter_gap true) s).
Proof.
  destruct s as [|x r]; [done|]. unfold add_spaces_after_materials.
  cbn zeta. by rewrite !sub_letters_digits.
Qed.

(** The three passes as one conversion and three insertions. *)
Lemma normalize_insert s :
  normalize s
  = insert_after (letter_gap false)
      (insert_after (letter_gap true)
         (punct_spaced (convert_fullwidth_to_halfwidth s))).
Proof.
  unfold normalize.
  by rewrite add_spaces_after_materials_insert,
    add_spacing_after_punctuation_passes, punct_passes.
Qed.

Lemma normalize_fixed s :
  Forall (fun c => is_fullwidth c = false) s ->
  settled punct_f s -> settled (letter_gap false) s ->
  normalize s = s.
Proof.
  intros H1 H2 H3. rewrite normalize_insert.
  rewrite convert_untouched by done.
  unfold punct_spaced. rewrite (settled_id punct_f) by done.
  rewrite (settled_id (letter_gap true)).
  - by apply settled_id.
  - revert H3. apply settled_impl. apply letter_gap_weaken.
Qed.

End Normalize.

(** ** Digit runs *)

Section Digits.

Implicit Types (s r a b run old new : str) (x c : char).



Lemma replace_same old s : replace old old s = s.
Proof.
  destruct old as [|o old].
  { simpl. induction s as [|x s IH]; [done|]. simpl. by f_equal. }
  remember (length s) as n eqn:Hn. revert s Hn.
  induction n as [n IH] using lt_wf_ind. intros s Hn.
  destruct s as [|x r]; [done|].
  destruct (startswith (o :: old) (x :: r)) eqn:E.
  - apply startswith_inv in E. rewrite E.
    rewrite replace_head by done. f_equal.
    apply (IH (length (drop (length (o :: old)) (x :: r)))); [|done].
    subst n. rewrite length_drop. simpl. lia.
  - rewrite replace_step by done. f_equal.
    apply (IH (length r)); [|done]. subst n. simpl. lia.
Qed.

Lemma startswith_digit old d r :
  old <> [] -> digit_free old -> is_ascii_digit d = true ->
  startswith old (d :: r) = false.
Proof.
  destruct old as [|o old]; [done|]. intros _ Hold Hd. simpl.
  apply Forall_cons in Hold as [Ho _].
  destruct (N.eqb_spec o d) as [->|]; [congruence|done].
Qed.

Lemma replace_over_digits old new run b :
  old <> [] -> digit_free old -> digits run ->
  replace old new (run ++ b) = run ++ replace old new b.
Proof.
  intros Hne Hold. induction 1 as [|d run Hd _ IH]; [done|]. simpl.
  rewrite replace_step; [by rewrite IH|done|].
  by apply startswith_digit.
Qed.

(** A match that starts in front of a run of digits ends in front of it. *)
Lemma startswith_before_digits old a d r :
  digit_free old -> is_ascii_digit d = true ->
  startswith old (a ++ d :: r) = true ->
  exists a2, a = old ++ a2.
Proof.
  revert a. induction old as [|o old IH]; intros a Hold Hd.
  - intros _. by exists a.
  - apply Forall_cons in Hold as [Ho Hold].
    destruct a as [|x a]; simpl.
    + destruct (N.eqb_spec o d) as [->|]; [congruence|done].
    + intros [->%N.eqb_eq H]%andb_prop.
      destruct (IH a Hold Hd H) as [a2 ->]. by exists a2.
Qed.

Lemma replace_keeps_digits old new a run b :
  old <> [] -> digit_free old -> digits run ->
  exists a' b', replace old new (a ++ run ++ b) = a' ++ run ++ b'.
Proof.
  intros Hne Hold Hrun.
  destruct run as [|d run].
  { exists (replace old new (a ++ b)), []. by rewrite app_nil_r. }
  apply Forall_cons in Hrun as Hd. destruct Hd as [Hd _].
  remember (length a) as n eqn:Hn. revert a Hn.
  induction n as [n IH] using lt_wf_ind. intros a Hn.
  destruct a as [|x a].
  - exists [], (replace old new b). rewrite !app_nil_l.
    by apply replace_over_digits.
  - destruct (startswith old ((x :: a) ++ (d :: run) ++ b)) eqn:E.
    + destruct (startswith_before_digits old (x :: a) d (run ++ b))
        as [a2 Ha2]; [done..|].
      rewrite Ha2, <- app_assoc, replace_head by done.
      destruct (IH (length a2)) with (a := a2) as (a' & b' & ->); [|done|].
      * subst n. rewrite Ha2, length_app. destruct old; [done|]. simpl. lia.
      * exists (new ++ a'), b'. by rewrite <- app_assoc.
    + change ((x :: a) ++ (d :: run) ++ b)
        with (x :: a ++ (d :: run) ++ b) in *.
      rewrite replace_step by done.
      destruct (IH (length a)) with (a := a) as (a' & b' & ->); [|done|].
      * subst n. simpl. lia.
      * by exists (x :: a'), b'.
Qed.


Lemma digit_safe_keeps e a run b :
  digit_safe e = true -> digits run ->
  exists a' b', replace e.1 e.2 (a ++ run ++ b) = a' ++ run ++ b'.
Proof.
  unfold digit_safe. intros [H|[H1 H2]%andb_prop]%orb_prop Hrun.
  - apply str_eqb_eq in H. rewrite <- H, replace_same. by exists a, b.
  - apply replace_keeps_digits; [| |done].
    + apply negb_true_iff in H1. by apply str_eqb_neq in H1.
    + apply Forall_forall. intros c Hc. rewrite forallb_forall in H2.
      apply negb_true_iff, H2. by apply list_elem_of_In.
Qed.

Lemma replace_all_keeps_digits entries a run b :
  Forall (fun e => digit_safe e = true) entries -> digits run ->
  exists a' b', replace_all entries (a ++ run ++ b) = a' ++ run ++ b'.
Proof.
  intros He Hrun. revert a b.
  induction He as [|e entries Hsafe _ IH]; intros a b.
  - by exists a, b.
  - cbn [replace_all fold_left].
    destruct (digit_safe_keeps e a run b Hsafe Hrun) as (a1 & b1 & ->).
    apply IH.
Qed.

(** Lines. *)
Lemma split_nonempty sep s : split sep s <> [].
Proof.
  destruct s as [|x s]; [done|]. simpl.
  destruct (x =? sep)%N; [done|]. by destruct (split sep s).
Qed.

Lemma split_over sep run b :
  Forall (fun c => c <> sep) run ->
  exists l ls, split sep b = l :: ls /\ split sep (run ++ b) = (run ++ l) :: ls.
Proof.
  induction 1 as [|x run Hx _ (l & ls & Hb & IH)].
  - destruct (split sep b) as [|l ls] eqn:E; [by apply split_nonempty in E|].
    by exists l, ls.
  - exists l, ls. split; [done|]. simpl. apply N.eqb_neq in Hx.
    by rewrite Hx, IH.
Qed.

Lemma split_decompose sep a run b :
  Forall (fun c => c <> sep) run ->
  exists L1 pre post L2,
    split sep (a ++ run ++ b) = L1 ++ (pre ++ run ++ post) :: L2.
Proof.
  intros Hrun. induction a as [|x a (L1 & pre & post & L2 & IH)].
  - destruct (split_over sep run b Hrun) as (l & ls & _ & H).
    exists [], [], l, ls. exact H.
  - simpl. destruct (x =? sep)%N.
    + exists ([] :: L1), pre, post, L2. by rewrite IH.
    + rewrite IH. destruct L1 as [|l1 L1]; simpl.
      * by exists [], (x :: pre), post, L2.
      * by exists ((x :: l1) :: L1), pre, post, L2.
Qed.

Lemma join_decompose sep L1 l L2 :
  exists p q, join sep (L1 ++ l :: L2) = p ++ l ++ q.
Proof.
  induction L1 as [|l1 L1 (p & q & IH)].
  - simpl. destruct L2 as [|l2 L2].
    + exists [], []. by rewrite app_nil_r.
    + by exists [], (sep :: join sep (l2 :: L2)).
  - change ((l1 :: L1) ++ l :: L2) with (l1 :: (L1 ++ l :: L2)).
    destruct (L1 ++ l :: L2) as [|l' L'] eqn:E; [by destruct L1|].
    change (join sep (l1 :: l' :: L')) with (l1 ++ sep :: join sep (l' :: L')).
    rewrite IH. exists (l1 ++ sep :: p), q. by rewrite <- app_assoc.
Qed.

Lemma digit_not_nl c : is_ascii_digit c = true -> c <> nl.
Proof. by intros H ->. Qed.

Lemma insert_after_app f a r :
  exists a', insert_after f (a ++ r) = a' ++ insert_after f r.
Proof.
  induction a as [|x a (a' & IH)]; [by exists []|]. simpl. rewrite IH.
  destruct (f x (a ++ r)); [by exists (x :: space :: a')|by exists (x :: a')].
Qed.

Lemma insert_after_keeps_digits f a run b :
  (forall x r, is_ascii_digit x = true -> f x r = false) -> digits run ->
  exists a' b', insert_after f (a ++ run ++ b) = a' ++ run ++ b'.
Proof.
  intros Hf Hrun. destruct (insert_after_app f a (run ++ b)) as (a' & ->).
  exists a', (insert_after f b). f_equal.
  apply insert_after_app_false. intros a1 x a2 ->. apply Hf.
  apply Forall_app in Hrun as [_ Hrun]. by apply Forall_cons in Hrun as [? _].
Qed.

Lemma fullwidth_table_digit_safe :
  forallb digit_safe fullwidth_to_halfwidth = true.
Proof. vm_compute. reflexivity. Qed.

Lemma forallb_Forall {A} (f : A -> bool) (l : list A) :
  forallb f l = true <-> Forall (fun y => f y = true) l.
Proof.
  rewrite forallb_forall, Forall_forall. split; intros H y Hy; apply H;
    by apply list_elem_of_In.
Qed.

Lemma digit_not_punct c : is_ascii_digit c = true -> is_punct c = false.
Proof.
  unfold is_ascii_digit, is_punct. intros Hc%in_range_spec.
  change (chr ")") with 41%N. change (chr ",") with 44%N.
  change (chr ":") with 58%N.
  rewrite !orb_false_iff, !N.eqb_neq. lia.
Qed.

Lemma normalize_keeps_digits a run b :
  digits run -> exists a' b', normalize (a ++ run ++ b) = a' ++ run ++ b'.
Proof.
  intros Hrun. rewrite normalize_insert.
  assert (exists a1 b1, convert_fullwidth_to_halfwidth (a ++ run ++ b)
                        = a1 ++ run ++ b1) as (a1 & b1 & ->).
  { unfold convert_fullwidth_to_halfwidth.
    destruct (a ++ run ++ b) eqn:E; [by exists a, b|]. rewrite <- E.
    apply replace_all_keeps_digits; [|done].
    apply forallb_Forall, fullwidth_table_digit_safe. }
  unfold punct_spaced.
  destruct (insert_after_keeps_digits punct_f a1 run b1)
    as (a2 & b2 & ->); [|done|].
  { intros x r Hx. unfold punct_f. by rewrite digit_not_punct. }
  destruct (insert_after_keeps_digits (letter_gap true) a2 run b2)
    as (a3 & b3 & ->); [|done|].
  { intros x r Hx. by apply letter_gap_not_letter, ascii_digit_not_letter. }
  apply insert_after_keeps_digits; [|done].
  intros x r Hx. by apply letter_gap_not_letter, ascii_digit_not_letter.
Qed.

End Digits.

(** ** The order of the entries *)

Section Sorted.

Implicit Types (d entries : list (str * str)) (e : str * str) (k v s : str).


Lemma keys_perm d d' : d ≡ₚ d' -> keys d ≡ₚ keys d'.
Proof. intros H. unfold keys. by apply Permutation_map. Qed.

Lemma insert_by_len_perm e entries : insert_by_len e entries ≡ₚ e :: entries.
Proof.
  induction entries as [|e' entries IH]; [done|]. simpl.
  destruct (length e'.1 <=? length e.1); [done|].
  rewrite IH. apply perm_swap.
Qed.

Lemma sorted_by_len_perm d : sorted_by_len d ≡ₚ d.
Proof.
  induction d as [|e d IH]; [done|]. simpl.
  by rewrite insert_by_len_perm, IH.
Qed.

Lemma insert_by_len_sorted e entries :
  StronglySorted longer_first entries ->
  StronglySorted longer_first (insert_by_len e entries).
Proof.
  induction 1 as [|e' entries Hs IH Hall]; simpl.
  - repeat constructor.
  - destruct (Nat.leb_spec (length e'.1) (length e.1)) as [Hle|Hgt].
    + constructor; [by constructor|]. constructor; [exact Hle|].
      eapply Forall_impl; [exact Hall|]. unfold longer_first. simpl.
      intros e2 He2. lia.
    + constructor; [exact IH|].
      rewrite insert_by_len_perm. constructor; [|exact Hall].
      unfold longer_first. lia.
Qed.

Lemma sorted_by_len_sorted d : StronglySorted longer_first (sorted_by_len d).
Proof.
  induction d as [|e d IH]; simpl; [constructor|].
  by apply insert_by_len_sorted.
Qed.

Lemma sorted_split entries1 e entries2 :
  StronglySorted longer_first (entries1 ++ e :: entries2) ->
  Forall (fun e1 => length e.1 <= length e1.1) entries1
  /\ Forall (fun e2 => length e2.1 <= length e.1) entries2.
Proof.
  induction entries1 as [|e1 entries1 IH]; simpl; intros H.
  - apply StronglySorted_inv in H as [_ H]. by split.
  - apply StronglySorted_inv in H as [Hs Hall].
    destruct (IH Hs) as [H1 H2]. split; [|done]. constructor; [|done].
    apply Forall_app in Hall as [_ Hall].
    by apply Forall_cons in Hall as [? _].
Qed.

Lemma replace_all_app entries1 entries2 s :
  replace_all (entries1 ++ entries2) s
  = replace_all entries2 (replace_all entries1 s).
Proof. unfold replace_all. by rewrite fold_left_app. Qed.

Lemma replace_all_absent entries s :
  Forall (fun e => occurs e.1 s = false) entries -> replace_all entries s = s.
Proof.
  induction 1 as [|e entries He _ IH]; [done|].
  cbn [replace_all fold_left]. by rewrite replace_absent.
Qed.

Lemma replace_occurs old new s :
  occurs old s = true -> occurs new (replace old new s) = true.
Proof.
  destruct old as [|o old].
  { intros _. apply occurs_spec. exists [], (flat_map (fun c => c :: new) s).
    done. }
  induction s as [|x r IH]; [done|]. intros H.
  destruct (startswith (o :: old) (x :: r)) eqn:E.
  - apply startswith_inv in E. rewrite E, replace_head by done.
    apply occurs_spec. by exists [], (replace (o :: old) new
      (drop (length (o :: old)) (x :: r))).
  - rewrite replace_step by done.
    cbn [occurs] in H. rewrite E in H. simpl in H.
    apply IH in H. apply occurs_spec in H as (a & b & ->).
    apply occurs_spec. by exists (x :: a), b.
Qed.

Lemma substring_length t s : substring t s -> length t <= length s.
Proof. intros (a & b & ->). rewrite !length_app. lia. Qed.

Lemma proper_substring_shorter t s : proper_substring t s -> length t < length s.
Proof.
  intros [(a & b & ->) Hne]. rewrite !length_app.
  destruct a as [|x a]; [|simpl; lia].
  destruct b as [|y b]; [|simpl; lia].
  simpl in Hne. by rewrite app_nil_r in Hne.
Qed.

(** The sorted entries around the entry of one term. *)
Lemma entries_split entries k v :
  NoDup (keys entries) -> (k, v) ∈ entries ->
  entries = entries_before k entries ++ (k, v) :: entries_after k entries.
Proof.
  induction entries as [|[k' v'] entries IH]; intros Hnd Hin.
  - by apply elem_of_nil in Hin.
  - cbn [keys map fst] in Hnd. apply NoDup_cons in Hnd as [Hk' Hnd].
    cbn [entries_before entries_after fst].
    destruct (str_eqb k' k) eqn:E.
    + apply str_eqb_eq in E. subst k'.
      apply elem_of_cons in Hin as [[= ->]|Hin]; [done|].
      exfalso. apply Hk'.
      apply (list_elem_of_fmap_2 fst) in Hin. exact Hin.
    + apply elem_of_cons in Hin as [[= -> ->]|Hin].
      * apply str_eqb_neq in E. done.
      * simpl. f_equal. by apply IH.
Qed.

End Sorted.

(** ** Cells and lines *)

Section Cells.

Implicit Types (s line content : str) (c sep : char) (lines : list str).

Lemma contains_spec c s : contains c s = true <-> c ∈ s.
Proof.
  unfold contains. induction s as [|x s IH]; simpl.
  - split; [done|]. by intros ?%elem_of_nil.
  - rewrite orb_true_iff, IH, elem_of_cons, N.eqb_eq. done.
Qed.

Lemma contains_false c s : contains c s = false <-> c ∉ s.
Proof.
  rewrite <- contains_spec. by destruct (contains c s).
Qed.

Lemma lstrip_suffix s : exists p, s = p ++ lstrip s.
Proof.
  induction s as [|x s (p & IH)]; [by exists []|]. simpl.
  destruct (is_space x); [|by exists []].
  exists (x :: p). simpl. by f_equal.
Qed.

Lemma strip_infix s : exists p q, s = p ++ strip s ++ q.
Proof.
  unfold strip, rstrip.
  destruct (lstrip_suffix s) as (p & Hp).
  destruct (lstrip_suffix (rev (lstrip s))) as (q & Hq).
  exists p, (rev q). rewrite <- rev_app_distr, <- Hq, rev_involutive.
  exact Hp.
Qed.

Lemma strip_elem c s : c ∈ strip s -> c ∈ s.
Proof.
  destruct (strip_infix s) as (p & q & H). intros Hc.
  rewrite H, !elem_of_app. auto.
Qed.

Lemma split_elem sep s line c : line ∈ split sep s -> c ∈ line -> c ∈ s.
Proof.
  revert line. induction s as [|x s IH]; intros line; simpl.
  - intros ->%list_elem_of_singleton. by intros ?%elem_of_nil.
  - destruct (x =? sep)%N.
    + intros [->|Hl]%elem_of_cons Hc; [by apply elem_of_nil in Hc|].
      apply elem_of_cons. right. by apply (IH line).
    + destruct (split sep s) as [|l ls] eqn:E;
        [by apply split_nonempty in E|].
      intros [->|Hl]%elem_of_cons Hc.
      * apply elem_of_cons in Hc as [->|Hc]; [apply list_elem_of_here|].
        apply list_elem_of_further, (IH l); [apply list_elem_of_here|done].
      * apply list_elem_of_further, (IH line); [|done].
        by apply list_elem_of_further.
Qed.

Lemma split_covers sep s c :
  c ∈ s -> c <> sep -> exists line, line ∈ split sep s /\ c ∈ line.
Proof.
  intros Hc Hne. induction s as [|x s IH]; [by apply elem_of_nil in Hc|].
  simpl. destruct (N.eqb_spec x sep) as [->|Hx].
  - apply elem_of_cons in Hc as [->|Hc]; [done|].
    destruct (IH Hc) as (line & Hl & Hcl). exists line.
    split; [by apply list_elem_of_further|done].
  - destruct (split sep s) as [|l ls] eqn:E;
      [by apply split_nonempty in E|].
    apply elem_of_cons in Hc as [->|Hc].
    + exists (x :: l). split; apply list_elem_of_here.
    + destruct (IH Hc) as (line & Hl & Hcl).
      apply elem_of_cons in Hl as [->|Hl].
      * exists (x :: l). split; [apply list_elem_of_here|].
        by apply list_elem_of_further.
      * exists line. split; [by apply list_elem_of_further|done].
Qed.

Lemma first_asterisk_index_none lines :
  Forall (fun line => contains marker line = false) lines ->
  first_asterisk_index lines = None.
Proof.
  induction 1 as [|line lines Hl _ IH]; [done|]. simpl.
  by rewrite Hl, IH.
Qed.

Lemma marker_not_nl : marker <> nl.
Proof. done. Qed.


Lemma country_step_cases country care_lines line :
  country_step (country, care_lines) line
  = if is_care_line line then (country, care_lines ++ [line])
    else (strip line, care_lines).
Proof.
  unfold country_step, is_care_line. rewrite <- negb_orb.
  by destruct (str_eqb (strip line) [] || startswith [marker] (strip line)).
Qed.

Lemma country_step_care country care_lines line :
  (country_step (country, care_lines) line).2
  = care_lines ++ filter (fun l => is_care_line l = true) [line].
Proof.
  rewrite country_step_cases, filter_cons. simpl.
  destruct (is_care_line line) eqn:E; simpl.
  - by destruct (decide (true = true)).
  - destruct (decide (false = true)); [done|]. by rewrite app_nil_r.
Qed.

Lemma country_loop_care lines country care_lines :
  (fold_left country_step lines (country, care_lines)).2
  = care_lines ++ filter (fun l => is_care_line l = true) lines.
Proof.
  revert country care_lines.
  induction lines as [|line lines IH]; intros country care_lines.
  - simpl. by rewrite app_nil_r.
  - cbn [fold_left].
    destruct (country_step (country, care_lines) line) as [c' care'] eqn:E.
    rewrite IH. pose proof (country_step_care country care_lines line) as H.
    rewrite E in H. simpl in H. rewrite H, <- app_assoc. f_equal.
    change (line :: lines) with ([line] ++ lines). by rewrite filter_app.
Qed.

(** The country is the last line that is not kept, stripped. *)
Lemma country_loop_country lines country care_lines :
  (fold_left country_step lines (country, care_lines)).1
  = default country
      (last (map strip (filter (fun l => is_care_line l = false) lines))).
Proof.
  revert country care_lines.
  induction lines as [|line lines IH]; intros country care_lines; [done|].
  cbn [fold_left]. rewrite country_step_cases, filter_cons.
  destruct (is_care_line line) eqn:E.
  - rewrite IH. by destruct (decide (true = false)).
  - rewrite IH. destruct (decide (false = false)); [|done].
    cbn [map]. rewrite last_cons. by destruct (last _).
Qed.

Lemma index_in_range {A} (row : list A) (i : Z) :
  (- Z.of_nat (length row) <= i < Z.of_nat (length row))%Z ->
  is_Some (index row i).
Proof.
  intros Hi. unfold index.
  destruct (Z.leb_spec 0 i).
  - apply lookup_lt_is_Some. lia.
  - destruct (Z.leb_spec (- Z.of_nat (length row)) i); [|lia].
    apply lookup_lt_is_Some. lia.
Qed.

End Cells.

(** ** Runs of a character class *)

Section Runs.

Variable p : char -> bool.

Implicit Types (s r t a b run rest : str) (x c : char).

Lemma findall_runs s :
  Re.findall p s
  = match Re.takewhile p s with
    | [] => match s with
            | [] => []
            | _ :: r => Re.findall p r
            end
    | run => run :: Re.findall p (Re.dropwhile p s)
    end.
Proof.
  induction s as [|c r IH]; [done|].
  cbn [Re.findall Re.takewhile Re.dropwhile].
  destruct (p c) eqn:Hc; [|done].
  destruct r as [|c' r']; [done|].
  destruct (p c') eqn:Hc'.
  - rewrite IH. cbn [Re.takewhile Re.dropwhile]. by rewrite Hc'.
  - cbn [Re.takewhile Re.dropwhile]. by rewrite Hc'.
Qed.

Lemma takewhile_stop t b :
  Forall (fun c => p c = true) t ->
  (forall y, head b = Some y -> p y = false) ->
  Re.takewhile p (t ++ b) = t /\ Re.dropwhile p (t ++ b) = b.
Proof.
  intros Ht Hb. induction Ht as [|x t Hx _ [IH1 IH2]]; simpl.
  - destruct b as [|y b]; [done|]. simpl. by rewrite (Hb y).
  - by rewrite Hx, IH1, IH2.
Qed.

Lemma takewhile_app_stop s r x :
  x ∈ s -> p x = false ->
  Re.takewhile p (s ++ r) = Re.takewhile p s
  /\ Re.dropwhile p (s ++ r) = Re.dropwhile p s ++ r
  /\ last (Re.dropwhile p s) = last s.
Proof.
  intros Hin Hx. induction s as [|y s IH]; [by apply elem_of_nil in Hin|].
  simpl. destruct (p y) eqn:Hy.
  - apply elem_of_cons in Hin as [->|Hin]; [congruence|].
    destruct (IH Hin) as (H1 & H2 & H3). rewrite H1, H2, H3.
    split; [done|]. split; [done|].
    rewrite last_cons. destruct (last s) eqn:E; [done|].
    apply last_None in E. subst s. by apply elem_of_nil in Hin.
  - done.
Qed.

Lemma maximal_run_skip c r t :
  p c = false -> maximal_run p t (c :: r) <-> maximal_run p t r.
Proof.
  intros Hc. unfold maximal_run. split.
  - intros (Hne & Ht & a & b & Hs & Ha & Hb).
    split; [done|]. split; [done|].
    destruct a as [|x a].
    + destruct t as [|y t]; [done|]. simpl in Hs. injection Hs as <- _.
      apply Forall_cons in Ht as [? _]. congruence.
    + injection Hs as <- ->. exists a, b. split; [done|]. split; [|done].
      intros y Hy. apply Ha. rewrite last_cons. by rewrite Hy.
  - intros (Hne & Ht & a & b & -> & Ha & Hb).
    split; [done|]. split; [done|].
    exists (c :: a), b. split; [done|]. split; [|done].
    intros y. rewrite last_cons. destruct (last a) as [z|] eqn:E.
    + intros [= <-]. by apply Ha.
    + by intros [= <-].
Qed.

Lemma maximal_run_first run rest t :
  run <> [] -> Forall (fun c => p c = true) run ->
  (forall y, head rest = Some y -> p y = false) ->
  maximal_run p t (run ++ rest) <-> t = run \/ maximal_run p t rest.
Proof.
  intros Hrun Hall Hrest.
  destruct (takewhile_stop run rest Hall Hrest) as [Htw Hdw].
  split.
  - intros (Hne & Ht & a & b & Hs & Ha & Hb).
    destruct (last a) as [x|] eqn:Hlast.
    + right. pose proof (Ha x eq_refl) as Hx.
      assert (x ∈ a) as Hin.
      { apply last_Some in Hlast as [a0 ->]. apply elem_of_app. right.
        apply list_elem_of_here. }
      destruct (takewhile_app_stop a (t ++ b) x Hin Hx) as (H1 & H2 & H3).
      rewrite <- Hs in H1, H2. rewrite Htw in H1. rewrite Hdw in H2.
      split; [done|]. split; [done|].
      exists (Re.dropwhile p a), b. split; [done|]. split; [|done].
      intros y Hy. rewrite H3, Hlast in Hy. by injection Hy as <-.
    + left. apply last_None in Hlast. subst a. simpl in Hs.
      destruct (takewhile_stop t b Ht Hb) as [H1 _].
      by rewrite <- Hs, Htw in H1.
  - intros [->|(Hne & Ht & a & b & -> & Ha & Hb)].
    + split; [done|]. split; [done|]. exists [], rest. by split.
    + split; [done|]. split; [done|].
      exists (run ++ a), b. split; [by rewrite <- app_assoc|].
      split; [|done]. intros y. rewrite last_app.
      destruct (last a) as [z|] eqn:E.
      * intros [= <-]. by apply Ha.
      * apply last_None in E. subst a. exfalso.
        destruct t as [|c t]; [done|]. apply Forall_cons in Ht as [Hc _].
        simpl in Hrest. specialize (Hrest c eq_refl). congruence.
Qed.

Lemma dropwhile_shorter s : length (Re.dropwhile p s) <= length s.
Proof.
  induction s as [|c s IH]; [done|]. simpl. destruct (p c); simpl; lia.
Qed.

(** [re.findall] finds exactly the maximal runs. *)
Lemma elem_of_findall s t : t ∈ Re.findall p s <-> maximal_run p t s.
Proof.
  remember (length s) as n eqn:Hn. revert s Hn.
  induction n as [n IH] using lt_wf_ind. intros s Hn.
  rewrite findall_runs.
  destruct (Re.takewhile p s) as [|c0 run0] eqn:Etw.
  - destruct s as [|c r].
    + split; [by intros ?%elem_of_nil|].
      intros (Hne & _ & a & b & Hs & _). symmetry in Hs.
      apply app_eq_nil in Hs as [_ Hs]. by apply app_eq_nil in Hs as [? _].
    + assert (p c = false) as Hc.
      { simpl in Etw. by destruct (p c). }
      rewrite (maximal_run_skip c r t Hc).
      apply (IH (length r)); [|done]. subst n. simpl. lia.
  - pose proof (takewhile_dropwhile p s) as Hs.
    pose proof (takewhile_all p s) as Hall. rewrite Etw in Hs, Hall.
    assert (forall y, head (Re.dropwhile p s) = Some y -> p y = false) as Hd.
    { intros y Hy. apply head_Some in Hy as [l' Hy].
      by apply (dropwhile_head p s y l'). }
    rewrite <- Hs at 2.
    rewrite (maximal_run_first (c0 :: run0) _ t) by done.
    rewrite elem_of_cons.
    rewrite (IH (length (Re.dropwhile p s))); [done| |done].
    subst n. rewrite <- Hs at 2. rewrite length_app. simpl. lia.
Qed.

End Runs.

Section Terms.

Implicit Types (d : dict) (t : translator) (term text : str) (c : char).

Lemma has_key_spec d term : has_key d term = true <-> term ∈ keys d.
Proof.
  unfold has_key, keys. induction d as [|e d IH]; simpl.
  - split; [done|]. by intros ?%elem_of_nil.
  - rewrite orb_true_iff, IH, elem_of_cons, str_eqb_eq.
    split; (intros [H|H]; [left; by symmetry|by right]).
Qed.

Lemma japanese_not_measure c : is_japanese c = true -> is_measure_char c = false.
Proof.
  unfold is_japanese, is_measure_char, is_ascii_digit.
  rewrite !orb_true_iff, !in_range_spec. intros H.
  apply orb_false_iff. split.
  - apply in_range_false. lia.
  - change (lit ".,：:cm") with [46; 44; 65306; 58; 99; 109]%N.
    unfold contains. simpl. rewrite !orb_false_iff, !N.eqb_neq. lia.
Qed.

(** The filter on measurement characters never fires on a run of
    Japanese characters. *)
Lemma japanese_run_not_measure term :
  term <> [] -> Forall (fun c => is_japanese c = true) term ->
  Re.match_all is_measure_char term = false /\ ~ measure_only term.
Proof.
  intros Hne Hall. destruct term as [|c term]; [done|].
  apply Forall_cons in Hall as [Hc _].
  apply japanese_not_measure in Hc. split.
  - unfold Re.match_all. simpl. by rewrite Hc.
  - intros [_ H]. apply Forall_cons in H as [? _]. congruence.
Qed.

Lemma elem_of_extract t text term :
  term ∈ extract_japanese_terms t text
  <-> is_unknown (translations t) term = true
      /\ maximal_run is_japanese term text.
Proof.
  unfold extract_japanese_terms.
  by rewrite elem_of_filter, elem_of_list_to_set, elem_of_findall.
Qed.

Lemma japanese_not_digit c : is_japanese c = true -> is_ascii_digit c = false.
Proof.
  unfold is_japanese, is_ascii_digit.
  rewrite !orb_true_iff, !in_range_spec. intros H.
  apply in_range_false. lia.
Qed.

Lemma dict_set_Forall (P : str * str -> Prop) d k v :
  Forall P d -> P (k, v) -> Forall P (dict_set d k v).
Proof.
  intros Hd Hkv. induction Hd as [|[k' v'] d He Hd IH]; simpl.
  - by repeat constructor.
  - destruct (str_eqb k' k); by constructor.
Qed.

(** A term found by [extract_japanese_terms] can be learned without
    putting digits at risk. *)
Lemma learned_term_digit_safe t text term english :
  term ∈ extract_japanese_terms t text ->
  forallb digit_safe (translations t) = true ->
  forallb digit_safe
    (translations (learn_new_translation t term english)) = true.
Proof.
  intros [_ (Hne & Hall & _)]%elem_of_extract Hd.
  apply forallb_Forall. apply dict_set_Forall; [by apply forallb_Forall|].
  unfold digit_safe. simpl. apply orb_true_iff. right.
  apply andb_true_iff. split.
  - apply negb_true_iff. by apply str_eqb_neq.
  - apply forallb_Forall. eapply Forall_impl; [exact Hall|].
    intros c Hc. simpl in Hc. by rewrite (japanese_not_digit c Hc).
Qed.

End Terms.

(** ** More on the three passes *)

Section PassesMore.

Implicit Types (s r v : str) (x c k : char) (T : list (str * str))
  (f g : char -> str -> bool).

Lemma subst_char_free (K : char -> bool) T c :
  Forall (fun e => exists k, e.1 = [k] /\ K k = true) T ->
  K c = false -> subst_char T c = [c].
Proof.
  intros HT Hc. induction HT as [|[k0 v] T (k & Hk & HK) _ IH]; [done|].
  simpl in Hk. subst k0. cbn [subst_char fst].
  assert (str_eqb [k] [c] = false) as ->; [|exact IH].
  apply str_eqb_neq. intros [= ->]. congruence.
Qed.

Lemma flat_map_subst_free (K : char -> bool) T v :
  Forall (fun e => exists k, e.1 = [k] /\ K k = true) T ->
  Forall (fun c => K c = false) v ->
  flat_map (subst_char T) v = v.
Proof.
  intros HT. induction 1 as [|c v Hc _ IH]; [done|].
  cbn [flat_map]. by rewrite (subst_char_free K), IH.
Qed.

Lemma flat_map_flat_map (h1 h2 : char -> str) s :
  flat_map h2 (flat_map h1 s) = flat_map (fun c => flat_map h2 (h1 c)) s.
Proof.
  induction s as [|x s IH]; [done|]. cbn [flat_map].
  by rewrite flat_map_app, IH.
Qed.

Lemma flat_map_ext_str (h1 h2 : char -> str) s :
  (forall c, h1 c = h2 c) -> flat_map h1 s = flat_map h2 s.
Proof. intros H. induction s as [|x s IH]; [done|]. simpl. by rewrite H, IH. Qed.

(** Replacing one character after the other is one character-wise
    substitution when no value holds a character of the class. *)
Lemma replace_all_subst (K : char -> bool) T s :
  Forall (fun e => exists k, e.1 = [k] /\ K k = true) T ->
  Forall (clearing K) T ->
  replace_all T s = flat_map (subst_char T) s.
Proof.
  intros HK HT. revert s.
  induction HT as [|[k0 v] T (k & Hk & Hv) _ IH]; intros s.
  - simpl. induction s as [|x s IHs]; [done|]. simpl. by f_equal.
  - apply Forall_cons in HK as [_ HK]. simpl in Hk, Hv. subst k0.
    cbn [replace_all fold_left fst snd].
    change (fold_left (fun acc e => replace e.1 e.2 acc) T (replace [k] v s))
      with (replace_all T (replace [k] v s)).
    rewrite IH by done. rewrite replace_char, flat_map_flat_map.
    apply flat_map_ext_str. intros c. cbn [subst_char fst snd].
    destruct (N.eqb_spec c k) as [->|Hne].
    + assert (str_eqb [k] [k] = true) as -> by by apply str_eqb_eq.
      by apply (flat_map_subst_free K).
    + assert (str_eqb [k] [c] = false) as ->.
      { apply str_eqb_neq. by intros [= ->]. }
      simpl. by rewrite app_nil_r.
Qed.

Lemma fullwidth_table_keys :
  Forall (fun e => exists k, e.1 = [k] /\ is_fullwidth k = true)
    fullwidth_to_halfwidth.
Proof.
  pose proof fullwidth_table_single as H. rewrite forallb_forall in H.
  apply Forall_forall. intros e He. apply single_key_spec, H.
  by apply list_elem_of_In.
Qed.

Lemma fullwidth_table_clearing :
  Forall (clearing is_fullwidth) fullwidth_to_halfwidth.
Proof.
  pose proof fullwidth_table_single as H. rewrite forallb_forall in H.
  apply Forall_forall. intros e He. apply single_key_spec, H.
  by apply list_elem_of_In.
Qed.

(** Positions of a settled text. *)
Lemma settled_at f s a x r :
  settled f s -> s = a ++ x :: r -> f x r = false.
Proof.
  revert s. induction a as [|y a IH]; intros s Hs ->; simpl in Hs.
  - by destruct Hs.
  - destruct Hs as [_ Hs]. by apply (IH _ Hs).
Qed.

Lemma insert_after_without_spaces f s :
  without_spaces (insert_after f s) = without_spaces s.
Proof.
  unfold without_spaces. induction s as [|x s IH]; [done|].
  cbn [insert_after]. destruct (f x s); simpl; by rewrite IH.
Qed.

Lemma insert_after_sublist f s : s `sublist_of` insert_after f s.
Proof.
  induction s as [|x s IH]; [done|]. cbn [insert_after].
  destruct (f x s).
  - apply sublist_skip. by apply sublist_cons.
  - by apply sublist_skip.
Qed.

(** The percent pattern adds nothing to the plain one. *)
Lemma letter_gap_true_false x r :
  letter_gap true x r = true -> letter_gap false x r = true.
Proof.
  unfold letter_gap. rewrite andb_true_r. by intros [? _]%andb_prop.
Qed.

Lemma next_is_decimal_insert f r :
  next_is_decimal (insert_after f r) = next_is_decimal r.
Proof. destruct r as [|y r]; [done|]. simpl. by destruct (f y r). Qed.

Lemma letter_passes_one s :
  insert_after (letter_gap false) (insert_after (letter_gap true) s)
  = insert_after (letter_gap false) s.
Proof.
  induction s as [|x r IH]; [done|]. cbn [insert_after].
  destruct (letter_gap true x r) eqn:E.
  - rewrite (letter_gap_true_false x r E). cbn [insert_after].
    assert (letter_gap false x (space :: insert_after (letter_gap true) r)
            = false) as ->.
    { unfold letter_gap. simpl. by rewrite !andb_false_r. }
    rewrite (letter_gap_not_letter false space _ space_not_letter).
    by rewrite IH.
  - cbn [insert_after].
    assert (letter_gap false x (insert_after (letter_gap true) r)
            = letter_gap false x r) as ->.
    { unfold letter_gap. by rewrite next_is_decimal_insert. }
    by rewrite IH.
Qed.

End PassesMore.

(** ** More on stripping, lines and the segmenter *)

Section CellsMore.

Implicit Types (s line content a b : str) (c sep x y : char)
  (lines L : list str).

Lemma lstrip_head s y : head (lstrip s) = Some y -> is_space y = false.
Proof.
  induction s as [|x s IH]; [done|]. simpl.
  destruct (is_space x) eqn:E; [exact IH|]. simpl. by intros [= <-].
Qed.

Lemma lstrip_fixed s :
  (forall y, head s = Some y -> is_space y = false) -> lstrip s = s.
Proof.
  destruct s as [|x s]; [done|]. intros H. simpl.
  by rewrite (H x eq_refl).
Qed.

Lemma lstrip_lstrip s : lstrip (lstrip s) = lstrip s.
Proof. apply lstrip_fixed, lstrip_head. Qed.

Lemma rstrip_prefix s : exists q, s = rstrip s ++ q.
Proof.
  unfold rstrip. destruct (lstrip_suffix (rev s)) as (p & Hp).
  exists (rev p). rewrite <- rev_app_distr, <- Hp. by rewrite rev_involutive.
Qed.

Lemma rstrip_rstrip s : rstrip (rstrip s) = rstrip s.
Proof. unfold rstrip. by rewrite rev_involutive, lstrip_lstrip. Qed.

Lemma rstrip_head s y :
  (forall z, head s = Some z -> is_space z = false) ->
  head (rstrip s) = Some y -> is_space y = false.
Proof.
  intros Hs Hy. destruct (rstrip_prefix s) as (q & Hq).
  apply Hs. rewrite Hq. destruct (rstrip s) as [|z u]; [done|]. exact Hy.
Qed.

Lemma strip_strip s : strip (strip s) = strip s.
Proof.
  unfold strip.
  rewrite (lstrip_fixed (rstrip (lstrip s))); [apply rstrip_rstrip|].
  intros y. apply rstrip_head. apply lstrip_head.
Qed.

Lemma strip_nil : strip [] = [].
Proof. done. Qed.

Lemma head_rev s : head (rev s) = last s.
Proof. rewrite rev_alt. apply (head_reverse s). Qed.

Lemma last_rev s : last (rev s) = head s.
Proof. rewrite rev_alt. apply (last_reverse s). Qed.

(** A text that neither begins nor ends with white space. *)
Lemma rstrip_fixed s :
  (forall y, last s = Some y -> is_space y = false) -> rstrip s = s.
Proof.
  intros H. unfold rstrip. rewrite lstrip_fixed; [apply rev_involutive|].
  intros y Hy. apply H. by rewrite <- head_rev.
Qed.

Lemma strip_fixed s :
  (forall y, head s = Some y -> is_space y = false) ->
  (forall y, last s = Some y -> is_space y = false) ->
  strip s = s.
Proof.
  intros H1 H2. unfold strip. rewrite (lstrip_fixed s H1).
  by apply rstrip_fixed.
Qed.

Lemma strip_fixed_inv s :
  strip s = s ->
  (forall y, head s = Some y -> is_space y = false)
  /\ (forall y, last s = Some y -> is_space y = false).
Proof.
  intros H. split; intros y Hy.
  - rewrite <- H in Hy. unfold strip in Hy.
    revert Hy. apply rstrip_head, lstrip_head.
  - rewrite <- H in Hy. unfold strip, rstrip in Hy.
    rewrite last_rev in Hy. by apply lstrip_head in Hy.
Qed.

(** Lines. *)
Lemma join_cons_cons sep l l' L :
  join sep (l :: l' :: L) = l ++ sep :: join sep (l' :: L).
Proof. done. Qed.

Lemma join_split sep s : join sep (split sep s) = s.
Proof.
  induction s as [|x s IH]; [done|]. simpl.
  destruct (split sep s) as [|l ls] eqn:E;
    [by apply split_nonempty in E|].
  destruct (N.eqb_spec x sep) as [->|Hne].
  - by rewrite join_cons_cons, IH.
  - destruct ls as [|l' ls].
    + simpl in *. by rewrite IH.
    + rewrite join_cons_cons in *. cbn [app]. by rewrite IH.
Qed.

Lemma split_no_sep sep s :
  Forall (fun c => c <> sep) s -> split sep s = [s].
Proof.
  induction 1 as [|x s Hx _ IH]; [done|]. simpl.
  apply N.eqb_neq in Hx. by rewrite Hx, IH.
Qed.

Lemma split_app_sep sep a b :
  split sep (a ++ sep :: b) = split sep a ++ split sep b.
Proof.
  induction a as [|x a IH]; simpl.
  - by rewrite N.eqb_refl.
  - destruct (x =? sep)%N; [by rewrite IH|].
    rewrite IH. destruct (split sep a) as [|l ls] eqn:E;
      [by apply split_nonempty in E|]. done.
Qed.

Lemma split_join sep L :
  L <> [] -> Forall (Forall (fun c => c <> sep)) L ->
  split sep (join sep L) = L.
Proof.
  intros Hne HL. induction HL as [|l L Hl HL IH]; [done|].
  destruct L as [|l' L'].
  - simpl. by apply split_no_sep.
  - change (join sep (l :: l' :: L')) with (l ++ sep :: join sep (l' :: L')).
    rewrite split_app_sep, IH by done. by rewrite split_no_sep.
Qed.

Lemma join_elem sep L c :
  c ∈ join sep L -> c = sep \/ exists l, l ∈ L /\ c ∈ l.
Proof.
  induction L as [|l L IH]; [by intros ?%elem_of_nil|].
  destruct L as [|l' L'].
  - simpl. intros Hc. right. exists l. split; [apply list_elem_of_here|done].
  - change (join sep (l :: l' :: L')) with (l ++ sep :: join sep (l' :: L')).
    rewrite elem_of_app, elem_of_cons. intros [Hc|[->|Hc]].
    + right. exists l. split; [apply list_elem_of_here|done].
    + by left.
    + destruct (IH Hc) as [->|(l0 & Hl0 & Hc0)]; [by left|].
      right. exists l0. split; [by apply list_elem_of_further|done].
Qed.

(** The first marker line. *)
Lemma first_asterisk_index_some lines i :
  first_asterisk_index lines = Some i ->
  Forall (fun line => contains marker line = false) (take i lines)
  /\ exists line, lines !! i = Some line /\ contains marker line = true.
Proof.
  revert i. induction lines as [|l lines IH]; intros i; [done|]. simpl.
  destruct (contains marker l) eqn:E.
  - intros [= <-]. split; [constructor|]. by exists l.
  - destruct (first_asterisk_index lines) as [j|] eqn:Ej; [|done].
    simpl. intros [= <-]. destruct (IH j eq_refl) as (H1 & line & H2 & H3).
    split; [by constructor|]. by exists line.
Qed.

Lemma first_asterisk_index_none_inv lines :
  first_asterisk_index lines = None ->
  Forall (fun line => contains marker line = false) lines.
Proof.
  induction lines as [|l lines IH]; [constructor|]. simpl.
  destruct (contains marker l) eqn:E; [done|].
  destruct (first_asterisk_index lines); [done|].
  intros _. constructor; [done|]. by apply IH.
Qed.

Lemma first_asterisk_index_app L1 l L2 :
  Forall (fun line => contains marker line = false) L1 ->
  contains marker l = true ->
  first_asterisk_index (L1 ++ l :: L2) = Some (length L1).
Proof.
  intros H Hl. induction H as [|l1 L1 Hl1 _ IH]; simpl.
  - by rewrite Hl.
  - by rewrite Hl1, IH.
Qed.

(** The whole function without its loop. *)
Lemma split_materials_content_marker content i :
  content <> [] ->
  first_asterisk_index (split nl (strip content)) = Some i ->
  split_materials_content content
  = (strip (join nl (take i (split nl (strip content)))),
     strip (join nl (filter (fun l => is_care_line l = true)
                       (drop i (split nl (strip content))))),
     default []
       (last (map strip
                (filter (fun l => is_care_line l = false)
                   (drop i (split nl (strip content))))))).
Proof.
  intros Hne Hi. unfold split_materials_content.
  destruct content as [|x r]; [done|]. rewrite Hi.
  pose proof (country_loop_care (drop i (split nl (strip (x :: r)))) [] [])
    as H1.
  pose proof (country_loop_country
                (drop i (split nl (strip (x :: r)))) [] []) as H2.
  destruct (fold_left country_step _ _) as [country care_lines].
  simpl in H1, H2. by rewrite H1, H2.
Qed.

Lemma is_care_line_false line :
  is_care_line line = false ->
  strip line <> [] /\ startswith [marker] (strip line) = false.
Proof.
  unfold is_care_line. intros [H1 H2]%orb_false_elim.
  split; [by apply str_eqb_neq|done].
Qed.

Lemma startswith_marker_contains line :
  startswith [marker] (strip line) = true -> contains marker line = true.
Proof.
  intros H. apply contains_spec, strip_elem.
  apply startswith_spec in H as [r ->]. apply list_elem_of_here.
Qed.

End CellsMore.

Section CareText.

Implicit Types (s l r : str) (x y : char) (CL : list str).

Lemma lstrip_nonempty s x : x ∈ s -> is_space x = false -> lstrip s <> [].
Proof.
  induction s as [|z s IH]; [by intros ?%elem_of_nil|].
  intros [->|Hin]%elem_of_cons Hx; simpl.
  - by rewrite Hx.
  - destruct (is_space z); [by apply IH|done].
Qed.

Lemma rstrip_nonempty s y :
  head s = Some y -> is_space y = false -> rstrip s <> [].
Proof.
  intros Hy Hsp. unfold rstrip. intros H.
  apply (f_equal (@rev N)) in H. rewrite rev_involutive in H. simpl in H.
  revert H. apply (lstrip_nonempty _ y); [|done].
  apply list_elem_of_In, in_rev. rewrite rev_involutive.
  apply list_elem_of_In. by apply head_Some_elem_of.
Qed.

Lemma rstrip_head_eq s : rstrip s <> [] -> head (rstrip s) = head s.
Proof.
  intros H. destruct (rstrip_prefix s) as (q & Hq). rewrite Hq at 2.
  by destruct (rstrip s).
Qed.

Lemma strip_nil_lstrip s : strip s = [] -> lstrip s = [].
Proof.
  unfold strip. intros H. destruct (lstrip s) as [|y u] eqn:E; [done|].
  exfalso. revert H. apply (rstrip_nonempty _ y); [done|].
  apply (lstrip_head s). by rewrite E.
Qed.

Lemma strip_head s y : head (strip s) = Some y -> head (lstrip s) = Some y.
Proof.
  unfold strip. intros H. rewrite <- rstrip_head_eq; [done|].
  intros E. by rewrite E in H.
Qed.

Lemma lstrip_app_blank l r : lstrip l = [] -> lstrip (l ++ r) = lstrip r.
Proof.
  induction l as [|x l IH]; [done|]. simpl.
  destruct (is_space x); [exact IH|done].
Qed.

Lemma lstrip_app_head l r y :
  head (lstrip l) = Some y -> head (lstrip (l ++ r)) = Some y.
Proof.
  induction l as [|x l IH]; [done|]. simpl.
  destruct (is_space x); [exact IH|done].
Qed.

Lemma lstrip_join_care CL :
  Forall (fun l => is_care_line l = true) CL ->
  lstrip (join nl CL) = [] \/ head (lstrip (join nl CL)) = Some marker.
Proof.
  induction 1 as [|l CL Hl _ IH]; [by left|].
  unfold is_care_line in Hl. apply orb_prop in Hl as [Hl|Hl].
  - apply str_eqb_eq, strip_nil_lstrip in Hl.
    destruct CL as [|l' CL']; [by left|].
    rewrite join_cons_cons, lstrip_app_blank by done.
    simpl lstrip. exact IH.
  - right. apply startswith_spec in Hl as [r Hr].
    assert (head (lstrip l) = Some marker) as Hh.
    { apply strip_head. by rewrite Hr. }
    destruct CL as [|l' CL']; [done|].
    rewrite join_cons_cons. by apply lstrip_app_head.
Qed.

Lemma strip_join_care CL :
  Forall (fun l => is_care_line l = true) CL ->
  strip (join nl CL) = [] \/ head (strip (join nl CL)) = Some marker.
Proof.
  intros H. unfold strip.
  destruct (lstrip_join_care CL H) as [->|Hh]; [by left|].
  right. rewrite rstrip_head_eq; [done|].
  apply (rstrip_nonempty _ marker); done.
Qed.

Lemma filter_all {A} (P : A -> Prop) `{!forall z, Decision (P z)} (l : list A) :
  Forall P l -> filter P l = l.
Proof.
  induction 1 as [|z l Hz _ IH]; [done|].
  by rewrite filter_cons_True, IH.
Qed.

Lemma filter_none {A} (P : A -> Prop) `{!forall z, Decision (P z)} (l : list A) :
  Forall (fun z => ~ P z) l -> filter P l = [].
Proof.
  induction 1 as [|z l Hz _ IH]; [done|].
  by rewrite filter_cons_False, IH.
Qed.

Lemma filter_Forall {A} (P : A -> Prop) `{!forall z, Decision (P z)} (l : list A) :
  Forall P (filter P l).
Proof.
  apply Forall_forall. intros z Hz.
  by apply list_elem_of_filter in Hz as [? _].
Qed.

End CareText.

(** ** Dictionaries *)

Lemma filter_ext_in {A} (P Q : A -> Prop)
    `{!forall z, Decision (P z)} `{!forall z, Decision (Q z)} (l : list A) :
  (forall z, z ∈ l -> P z <-> Q z) -> filter P l = filter Q l.
Proof.
  induction l as [|z l IH]; intros Hext; [done|].
  rewrite !filter_cons.
  rewrite IH by (intros y Hy; apply Hext; by apply list_elem_of_further).
  pose proof (Hext z (list_elem_of_here _ _)) as Hz.
  destruct (decide (P z)), (decide (Q z)); tauto || done.
Qed.

Section Dict.

Implicit Types (d o B E : dict) (e : str * str) (k v : str).

Lemma keys_elem d k : k ∈ keys d <-> exists v, (k, v) ∈ d.
Proof.
  unfold keys. induction d as [|[k' v'] d IH]; simpl.
  - split; [by intros ?%elem_of_nil|]. by intros [v ?%elem_of_nil].
  - rewrite elem_of_cons, IH. split.
    + intros [->|[v Hv]]; [exists v'; apply list_elem_of_here|].
      exists v. by apply list_elem_of_further.
    + intros [v [[= -> ->]|Hv]%elem_of_cons]; [by left|]. right. by exists v.
Qed.

Lemma keys_app d1 d2 : keys (d1 ++ d2) = keys d1 ++ keys d2.
Proof. unfold keys. apply map_app. Qed.

Lemma keys_dict_set d k v :
  keys (dict_set d k v) = if has_key d k then keys d else keys d ++ [k].
Proof.
  induction d as [|[k' v'] d IH]; [done|]. simpl.
  destruct (str_eqb k' k) eqn:E; simpl.
  - apply str_eqb_eq in E. by subst k'.
  - rewrite IH. fold (has_key d k). by destruct (has_key d k).
Qed.

Lemma keys_dict_set_elem d k v k' :
  k' ∈ keys (dict_set d k v) <-> k' = k \/ k' ∈ keys d.
Proof.
  rewrite keys_dict_set. destruct (has_key d k) eqn:E.
  - apply has_key_spec in E. split; [by right|]. by intros [->|?].
  - rewrite elem_of_app, list_elem_of_singleton. tauto.
Qed.

Lemma NoDup_keys_dict_set d k v :
  NoDup (keys d) -> NoDup (keys (dict_set d k v)).
Proof.
  intros H. rewrite keys_dict_set. destruct (has_key d k) eqn:E; [done|].
  apply NoDup_app. split; [done|]. split; [|apply NoDup_singleton].
  intros k' Hk' ->%list_elem_of_singleton.
  apply has_key_spec in Hk'. congruence.
Qed.

Lemma elem_of_dict_set d k v k' v' :
  NoDup (keys d) ->
  (k', v') ∈ dict_set d k v
  <-> (k' = k /\ v' = v) \/ (k' <> k /\ (k', v') ∈ d).
Proof.
  induction d as [|[k0 v0] d IH]; intros Hnd; simpl.
  - rewrite list_elem_of_singleton. split.
    + intros [= -> ->]. by left.
    + intros [[-> ->]|[_ ?%elem_of_nil]]; done.
  - cbn [keys map fst] in Hnd. apply NoDup_cons in Hnd as [Hk0 Hnd].
    destruct (str_eqb k0 k) eqn:E.
    + apply str_eqb_eq in E. subst k0. rewrite !elem_of_cons. split.
      * intros [[= -> ->]|Hin]; [by left|]. right. split; [|by right].
        intros ->. apply Hk0, keys_elem. by exists v'.
      * intros [[-> ->]|[Hne [[= -> ->]|Hin]]]; [by left|done|by right].
    + apply str_eqb_neq in E. rewrite !elem_of_cons, (IH Hnd). split.
      * intros [[= -> ->]|[[-> ->]|[Hne Hin]]].
        -- right. split; [done|]. by left.
        -- by left.
        -- right. split; [done|]. by right.
      * intros [[-> ->]|[Hne [[= -> ->]|Hin]]].
        -- right. by left.
        -- by left.
        -- right. right. by split.
Qed.

Lemma dict_update_cons d e o :
  dict_update d (e :: o) = dict_update (dict_set d e.1 e.2) o.
Proof. done. Qed.

Lemma NoDup_keys_dict_update d o :
  NoDup (keys d) -> NoDup (keys (dict_update d o)).
Proof.
  revert d. induction o as [|e o IH]; intros d H; [done|].
  rewrite dict_update_cons. by apply IH, NoDup_keys_dict_set.
Qed.

(** What [update] leaves in the dictionary. *)
Lemma elem_of_dict_update d o k v :
  NoDup (keys d) -> NoDup (keys o) ->
  (k, v) ∈ dict_update d o
  <-> (k, v) ∈ o \/ ((k ∉ keys o) /\ (k, v) ∈ d).
Proof.
  revert d. induction o as [|[k0 v0] o IH]; intros d Hd Ho.
  - simpl. split; [intros H; right; split; [by intros ?%elem_of_nil|done]|].
    by intros [?%elem_of_nil|[_ ?]].
  - cbn [keys map fst] in Ho. apply NoDup_cons in Ho as [Hk0 Ho].
    rewrite dict_update_cons. cbn [fst snd].
    rewrite (IH _ (NoDup_keys_dict_set d k0 v0 Hd) Ho).
    rewrite (elem_of_dict_set d k0 v0 k v Hd).
    cbn [keys map fst]. rewrite !elem_of_cons. split.
    + intros [Hin|[Hk [[-> ->]|[Hne Hin]]]].
      * left. by right.
      * left. by left.
      * right. split; [|done]. intros [->|?]; done.
    + intros [[[= -> ->]|Hin]|[Hk Hin]].
      * right. split; [done|]. by left.
      * by left.
      * right. split; [tauto|]. right. split; [|done]. intros ->. tauto.
Qed.

(** The keys of the dictionary stay where they are; new keys follow in
    the order of the update. *)
Lemma keys_dict_update d o :
  NoDup (keys o) ->
  keys (dict_update d o)
  = keys d ++ filter (fun k => k ∉ keys d) (keys o).
Proof.
  revert d. induction o as [|[k0 v0] o IH]; intros d Ho.
  - simpl. by rewrite app_nil_r.
  - cbn [keys map fst] in Ho. apply NoDup_cons in Ho as [Hk0 Ho].
    rewrite dict_update_cons. cbn [fst snd]. rewrite (IH _ Ho).
    cbn [keys map fst]. rewrite keys_dict_set.
    destruct (has_key d k0) eqn:E.
    + apply has_key_spec in E. rewrite filter_cons_False by tauto. done.
    + assert (k0 ∉ keys d) as Hk.
      { intros H%has_key_spec. congruence. }
      rewrite filter_cons_True by done. rewrite <- app_assoc. f_equal.
      cbn [app]. f_equal. apply filter_ext_in. intros k Hin.
      rewrite elem_of_app, list_elem_of_singleton. split; [tauto|].
      intros H [?| ->]; done.
Qed.

(** Two lists with the same distinct keys in the same order and the
    same entries are equal. *)
Lemma dict_ext d1 d2 :
  NoDup (keys d2) -> keys d1 = keys d2 ->
  (forall e, e ∈ d1 -> e ∈ d2) -> d1 = d2.
Proof.
  revert d2. induction d1 as [|[k1 v1] d1 IH]; intros [|[k2 v2] d2];
    try done.
  cbn [keys map fst]. intros [Hk2 Hnd]%NoDup_cons [= -> Hkeys] Hin.
  assert (v1 = v2) as ->.
  { specialize (Hin (k2, v1) (list_elem_of_here _ _)).
    apply elem_of_cons in Hin as [[= ->]|Hin]; [done|].
    exfalso. apply Hk2, keys_elem. by exists v1. }
  f_equal. apply IH; [done..|]. intros [k v] He.
  specialize (Hin (k, v) (list_elem_of_further _ _ _ He)).
  apply elem_of_cons in Hin as [[= -> ->]|Hin]; [|done].
  exfalso. apply Hk2. rewrite <- Hkeys.
  apply (keys_elem d1 k2). by exists v2.
Qed.

End Dict.

(** ** The sort is stable *)

Section Stable.

Implicit Types (d l : list (str * str)) (e : str * str).

Lemma insert_by_len_front e l :
  Forall (fun e2 => length e2.1 <= length e.1) l ->
  insert_by_len e l = e :: l.
Proof.
  destruct 1 as [|e' l He' _]; [done|]. simpl.
  apply Nat.leb_le in He'. by rewrite He'.
Qed.

Lemma sorted_by_len_fixed l :
  StronglySorted longer_first l -> sorted_by_len l = l.
Proof.
  induction 1 as [|e l _ IH Hall]; [done|]. simpl. rewrite IH.
  by apply insert_by_len_front.
Qed.

Lemma sorted_by_len_app l1 l2 :
  sorted_by_len (l1 ++ l2) = foldr insert_by_len (sorted_by_len l2) l1.
Proof. unfold sorted_by_len. by rewrite foldr_app. Qed.

Lemma filter_insert_by_len (P : str * str -> Prop)
    `{!forall z, Decision (P z)} e l :
  StronglySorted longer_first l ->
  filter P (insert_by_len e l)
  = if decide (P e) then insert_by_len e (filter P l) else filter P l.
Proof.
  induction 1 as [|e' l Hs IH Hall]; simpl.
  - rewrite filter_cons. by destruct (decide (P e)).
  - destruct (Nat.leb_spec (length e'.1) (length e.1)) as [Hle|Hgt].
    + rewrite filter_cons. destruct (decide (P e)) as [HP|HP]; [|done].
      rewrite insert_by_len_front; [done|].
      apply Forall_forall. intros e2 [_ He2]%list_elem_of_filter.
      apply elem_of_cons in He2 as [->|He2]; [done|].
      rewrite Forall_forall in Hall. specialize (Hall e2 He2).
      unfold longer_first in Hall. lia.
    + rewrite !(filter_cons _ e'), IH.
      destruct (decide (P e)) as [HP|HP]; [|done].
      destruct (decide (P e')) as [HP'|HP']; [|done].
      simpl. destruct (Nat.leb_spec (length e'.1) (length e.1)); [lia|done].
Qed.

(** Sorting and filtering commute. *)
Lemma filter_sorted_by_len (P : str * str -> Prop)
    `{!forall z, Decision (P z)} d :
  filter P (sorted_by_len d) = sorted_by_len (filter P d).
Proof.
  induction d as [|e d IH]; [done|]. simpl.
  rewrite filter_insert_by_len by apply sorted_by_len_sorted.
  rewrite filter_cons, IH. by destruct (decide (P e)).
Qed.

Lemma same_length_sorted n l :
  Forall (fun e => length e.1 = n) l -> StronglySorted longer_first l.
Proof.
  induction 1 as [|e l He Hl IH]; constructor; [done|].
  eapply Forall_impl; [exact Hl|]. intros e2 He2. unfold longer_first.
  simpl in He2. lia.
Qed.

Lemma keys_filter (Q : str -> Prop) `{!forall z, Decision (Q z)} d :
  keys (filter (fun e => Q e.1) d) = filter Q (keys d).
Proof.
  induction d as [|e d IH]; [done|]. cbn [keys map].
  rewrite !filter_cons. destruct (decide (Q e.1)); simpl.
  - f_equal. exact IH.
  - exact IH.
Qed.

Lemma keys_take n d : keys (take n d) = take n (keys d).
Proof. unfold keys. revert n. induction d as [|e d IH]; intros [|n]; simpl; by f_equal. Qed.

Lemma translate_line_order d1 d2 line :
  sorted_by_len d1 = sorted_by_len d2 ->
  translate_line d1 line = translate_line d2 line.
Proof. intros H. unfold translate_line. by rewrite H. Qed.

Lemma keys_sorted_perm d1 d2 :
  sorted_by_len d1 = sorted_by_len d2 -> keys d1 ≡ₚ keys d2.
Proof.
  intros H. rewrite <- (keys_perm _ _ (sorted_by_len_perm d1)).
  rewrite <- (keys_perm _ _ (sorted_by_len_perm d2)). by rewrite H.
Qed.

End Stable.

(** ** Lines of a translated text *)

Section TextMore.

Implicit Types (s r line old new u : str) (c x : char) (d : dict)
  (t : translator).

Lemma count_nl_app s r : count_nl (s ++ r) = count_nl s + count_nl r.
Proof. unfold count_nl. by rewrite List.filter_app, length_app. Qed.

Lemma count_nl_zero s : nl ∉ s <-> count_nl s = 0.
Proof.
  unfold count_nl. induction s as [|x s IH]; simpl.
  - split; [done|]. by intros _ ?%elem_of_nil.
  - rewrite not_elem_of_cons. destruct (N.eqb_spec x nl) as [->|Hne]; simpl.
    + split; [by intros [[] _]|done].
    + rewrite <- IH. split; [by intros [_ ?]|]. intros H. split; [|done].
      intros Heq. by apply Hne.
Qed.

Lemma split_length s : length (split nl s) = S (count_nl s).
Proof.
  unfold count_nl. induction s as [|x s IH]; [done|]. simpl.
  destruct (x =? nl)%N; simpl; [by rewrite IH|].
  destruct (split nl s) as [|l ls] eqn:E; [by apply split_nonempty in E|].
  exact IH.
Qed.

Lemma count_nl_insert_after f s : count_nl (insert_after f s) = count_nl s.
Proof.
  unfold count_nl. induction s as [|x s IH]; [done|].
  cbn [insert_after]. destruct (f x s); simpl; destruct (x =? nl)%N; simpl;
    by rewrite IH.
Qed.

Lemma count_nl_flat_map (h : char -> str) s :
  (forall c, count_nl (h c) = if (c =? nl)%N then 1 else 0) ->
  count_nl (flat_map h s) = count_nl s.
Proof.
  intros Hh. induction s as [|x s IH]; [done|]. cbn [flat_map].
  rewrite count_nl_app, IH, Hh. unfold count_nl. simpl.
  by destruct (x =? nl)%N.
Qed.

Lemma subst_char_cases T c :
  subst_char T c = [c] \/ exists e, e ∈ T /\ subst_char T c = e.2.
Proof.
  induction T as [|e T IH]; [by left|]. simpl.
  destruct (str_eqb e.1 [c]).
  - right. exists e. split; [apply list_elem_of_here|done].
  - destruct IH as [IH|(e' & He' & IH)]; [by left|].
    right. exists e'. split; [by apply list_elem_of_further|done].
Qed.

Lemma fullwidth_values_no_nl :
  forallb (fun e => negb (contains nl e.2) && negb (str_eqb e.1 [nl]))
    fullwidth_to_halfwidth = true.
Proof. vm_compute. reflexivity. Qed.

Lemma halfwidth_of_count_nl c :
  count_nl (halfwidth_of c) = if (c =? nl)%N then 1 else 0.
Proof.
  pose proof fullwidth_values_no_nl as Htab.
  rewrite forallb_forall in Htab.
  unfold halfwidth_of.
  destruct (N.eqb_spec c nl) as [->|Hne].
  - assert (subst_char fullwidth_to_halfwidth nl = [nl]) as ->; [|done].
    generalize Htab. generalize fullwidth_to_halfwidth as T.
    induction T as [|e T IH]; intros HT; [done|]. simpl.
    pose proof (HT e (or_introl eq_refl)) as [_ He]%andb_prop.
    apply negb_true_iff in He. rewrite He. apply IH.
    intros e' He'. apply HT. by right.
  - destruct (subst_char_cases fullwidth_to_halfwidth c)
      as [->|(e & He & ->)].
    + unfold count_nl. simpl. apply N.eqb_neq in Hne. by rewrite Hne.
    + apply list_elem_of_In, Htab in He. apply andb_prop in He as [He _].
      apply negb_true_iff, contains_false in He.
      by apply count_nl_zero.
Qed.

Lemma count_nl_normalize u : count_nl (normalize u) = count_nl u.
Proof.
  rewrite normalize_insert. rewrite !count_nl_insert_after.
  unfold punct_spaced. rewrite count_nl_insert_after.
  destruct u as [|x r]; [done|].
  unfold convert_fullwidth_to_halfwidth.
  rewrite (replace_all_subst is_fullwidth);
    [|apply fullwidth_table_keys|apply fullwidth_table_clearing].
  apply (count_nl_flat_map halfwidth_of), halfwidth_of_count_nl.
Qed.

(** The characters of a replaced text. *)
Lemma replace_elem old new s c :
  c ∈ replace old new s -> c ∈ s \/ c ∈ new.
Proof.
  destruct old as [|o old].
  { simpl. rewrite elem_of_app. intros [?|Hc]; [by right|].
    induction s as [|x s IH]; [by apply elem_of_nil in Hc|].
    cbn [flat_map] in Hc. change (x :: new) with ([x] ++ new) in Hc.
    rewrite <- app_assoc in Hc.
    rewrite !elem_of_app, list_elem_of_singleton in Hc.
    destruct Hc as [->|[?|Hc]].
    - left. apply list_elem_of_here.
    - by right.
    - destruct (IH Hc) as [?|?]; [left; by apply list_elem_of_further|by right]. }
  remember (length s) as n eqn:Hn. revert s Hn.
  induction n as [n IH] using lt_wf_ind. intros s Hn.
  destruct s as [|x r]; [by intros ?%elem_of_nil|].
  destruct (startswith (o :: old) (x :: r)) eqn:E.
  - apply startswith_inv in E. rewrite E at 1.
    rewrite replace_head by done. rewrite elem_of_app.
    intros [?|Hc]; [by right|].
    apply (IH (length (drop (length (o :: old)) (x :: r)))) in Hc; [|
      subst n; rewrite length_drop; simpl; lia|done].
    destruct Hc as [Hc|?]; [|by right]. left.
    rewrite E. apply elem_of_app. by right.
  - rewrite replace_step by done. intros [->|Hc]%elem_of_cons.
    + left. apply list_elem_of_here.
    + apply (IH (length r)) in Hc; [|subst n; simpl; lia|done].
      destruct Hc as [?|?]; [left; by apply list_elem_of_further|by right].
Qed.

Lemma replace_all_no_nl entries line :
  Forall (fun e => nl ∉ e.2) entries -> nl ∉ line ->
  nl ∉ replace_all entries line.
Proof.
  intros He. revert line. induction He as [|e entries He _ IH]; [done|].
  intros line Hline. cbn [replace_all fold_left]. apply IH.
  intros [?|?]%replace_elem; done.
Qed.

Lemma translate_line_no_nl d line :
  Forall (fun e => nl ∉ e.2) d -> nl ∉ line -> nl ∉ translate_line d line.
Proof.
  intros Hd Hline. unfold translate_line.
  destruct (str_eqb (strip line) []); [done|].
  apply replace_all_no_nl; [|done]. by rewrite sorted_by_len_perm.
Qed.

Lemma split_lines_no_nl s : Forall (fun l => nl ∉ l) (split nl s).
Proof.
  induction s as [|x s IH]; simpl.
  - constructor; [by intros ?%elem_of_nil|constructor].
  - destruct (N.eqb_spec x nl) as [->|Hne].
    + constructor; [by intros ?%elem_of_nil|done].
    + destruct (split nl s) as [|l ls]; [repeat constructor|].
      * intros [?|?%elem_of_nil]%elem_of_cons; done.
      * apply Forall_cons in IH as [Hl Hls]. constructor; [|done].
        intros [?|?]%elem_of_cons; done.
Qed.

Lemma split_lines_first sep s l ls :
  split sep s = l :: ls -> exists r, s = l ++ r.
Proof.
  revert l ls. induction s as [|x s IH]; intros l ls; simpl.
  - intros [= <- <-]. by exists [].
  - destruct (x =? sep)%N; [intros [= <- <-]; by exists (x :: s)|].
    destruct (split sep s) as [|l' ls'] eqn:E;
      [by apply split_nonempty in E|].
    intros [= <- <-]. destruct (IH l' ls' eq_refl) as [r ->].
    by exists r.
Qed.

(** The states of [translate_text]. *)
Lemma translate_text_state t v interactive :
  translations (translate_text t v interactive).2 = translations t
  /\ care_labels (translate_text t v interactive).2 = care_labels t
  /\ unknown_terms t ⊆ unknown_terms (translate_text t v interactive).2
  /\ (interactive = false -> (translate_text t v interactive).2 = t).
Proof.
  unfold translate_text.
  destruct (negb (truthy v) || negb (isinstance_str v)); [done|].
  destruct v as [| | |s]; try done. simpl.
  destruct interactive; [|done].
  destruct (bool_decide (extract_japanese_terms t s = ∅)); [done|].
  simpl. split; [done|]. split; [done|]. split; [set_solver|done].
Qed.

Lemma translate_text_value t1 t2 v i1 i2 :
  translations t1 = translations t2 ->
  (translate_text t1 v i1).1 = (translate_text t2 v i2).1.
Proof.
  intros H. unfold translate_text.
  destruct (negb (truthy v) || negb (isinstance_str v)); [done|].
  destruct v as [| | |s]; try done. simpl. by rewrite H.
Qed.

Lemma translate_care_instructions_labels t1 t2 v :
  care_labels t1 = care_labels t2 ->
  translate_care_instructions t1 v = translate_care_instructions t2 v.
Proof. intros H. unfold translate_care_instructions. by rewrite H. Qed.

End TextMore.

(** ** Rows *)

Section Rows.

Implicit Types (t : translator) (row : list str) (rows : list (list str))
  (mc : Z).

Lemma index_none {A} (l : list A) (i : Z) :
  (i < Z.of_nat (length l))%Z ->
  index l i = None <-> (i < - Z.of_nat (length l))%Z.
Proof.
  intros Hi. unfold index.
  destruct (Z.leb_spec 0 i).
  - rewrite lookup_ge_None. lia.
  - destruct (Z.leb_spec (- Z.of_nat (length l)) i).
    + rewrite lookup_ge_None. lia.
    + split; [lia|done].
Qed.

Lemma process_row_state t row interactive mc record t' :
  process_row t row interactive mc = Some (record, t') ->
  translations t' = translations t
  /\ care_labels t' = care_labels t
  /\ unknown_terms t ⊆ unknown_terms t'
  /\ (interactive = false -> t' = t).
Proof.
  unfold process_row. destruct row as [|dims rest].
  { by intros [= <- <-]. }
  pose proof (translate_text_state t (VStr dims) interactive) as H1.
  destruct (translate_text t (VStr dims) interactive) as [b t1].
  simpl in H1. destruct H1 as (H1a & H1b & H1c & H1d).
  destruct (mc <? Z.of_nat (length (dims :: rest)))%Z.
  - destruct (index (dims :: rest) mc) as [cell|]; [|done].
    destruct (split_materials_content cell) as [[m c] y].
    pose proof (translate_text_state t1 (VStr m) interactive) as H2.
    destruct (translate_text t1 (VStr m) interactive) as [dm t2].
    simpl in H2. destruct H2 as (H2a & H2b & H2c & H2d).
    intros [= <- <-]. split; [congruence|]. split; [congruence|].
    split; [set_solver|]. intros Hi. rewrite (H2d Hi). by apply H1d.
  - by intros [= <- <-].
Qed.

Lemma process_row_some t row interactive mc :
  (0 <= mc)%Z -> is_Some (process_row t row interactive mc).
Proof.
  intros Hmc. unfold process_row. destruct row as [|dims rest]; [done|].
  destruct (translate_text t (VStr dims) interactive) as [b t1].
  destruct (Z.ltb_spec mc (Z.of_nat (length (dims :: rest)))) as [Hlt|Hge];
    [|done].
  destruct (index_in_range (dims :: rest) mc) as [cell ->]; [lia|].
  destruct (split_materials_content cell) as [[m c] y].
  by destruct (translate_text t1 (VStr m) interactive) as [dm t2].
Qed.

(** The records depend on the dictionary and the care labels only. *)
Lemma process_row_record t1 t2 row i1 i2 mc :
  translations t1 = translations t2 -> care_labels t1 = care_labels t2 ->
  fst <$> process_row t1 row i1 mc = fst <$> process_row t2 row i2 mc.
Proof.
  intros Hd Hc. unfold process_row. destruct row as [|dims rest]; [done|].
  pose proof (translate_text_value t1 t2 (VStr dims) i1 i2 Hd) as Hb.
  pose proof (translate_text_state t1 (VStr dims) i1) as (Ha1 & Ha2 & _).
  pose proof (translate_text_state t2 (VStr dims) i2) as (Hb1 & Hb2 & _).
  destruct (translate_text t1 (VStr dims) i1) as [b1 u1].
  destruct (translate_text t2 (VStr dims) i2) as [b2 u2].
  simpl in *. subst b2.
  destruct (mc <? Z.of_nat (S (length rest)))%Z; [|done].
  destruct (index (dims :: rest) mc) as [cell|]; [|done].
  destruct (split_materials_content cell) as [[m c] y].
  assert (translations u1 = translations u2) as Hu by congruence.
  pose proof (translate_text_value u1 u2 (VStr m) i1 i2 Hu) as Hm.
  pose proof (translate_text_state u1 (VStr m) i1) as (_ & Hc1 & _).
  pose proof (translate_text_state u2 (VStr m) i2) as (_ & Hc2 & _).
  destruct (translate_text u1 (VStr m) i1) as [m1 w1].
  destruct (translate_text u2 (VStr m) i2) as [m2 w2].
  simpl in *. subst m2.
  rewrite (translate_care_instructions_labels w1 w2) by congruence. done.
Qed.

End Rows.

(** ** Texts without known terms; the table on digits and letters *)

Section Unchanged.

Implicit Types (s line k : str) (d : dict) (c : char).

Lemma split_elem_infix sep s line :
  line ∈ split sep s -> exists a b, s = a ++ line ++ b.
Proof.
  revert line. induction s as [|x s IH]; intros line; simpl.
  - intros ->%list_elem_of_singleton. by exists [], [].
  - destruct (N.eqb_spec x sep) as [->|Hne].
    + intros [->|Hl]%elem_of_cons; [by exists [], (sep :: s)|].
      destruct (IH line Hl) as (a & b & ->). by exists (sep :: a), b.
    + destruct (split sep s) as [|l ls] eqn:E;
        [by apply split_nonempty in E|].
      intros [->|Hl]%elem_of_cons.
      * destruct (IH l (list_elem_of_here _ _)) as (a & b & Hs).
        pose proof (split_lines_first sep s l ls E) as [r ->].
        by exists [], r.
      * destruct (IH line (list_elem_of_further _ _ _ Hl)) as (a & b & ->).
        by exists (x :: a), b.
Qed.

Lemma occurs_in_line sep s line k :
  line ∈ split sep s -> occurs k line = true -> occurs k s = true.
Proof.
  intros (a & b & ->)%split_elem_infix (a' & b' & ->)%occurs_spec.
  apply occurs_spec. exists (a ++ a'), (b' ++ b). by rewrite <- !app_assoc.
Qed.

Lemma translate_line_absent d line :
  Forall (fun e => occurs e.1 line = false) d -> translate_line d line = line.
Proof.
  intros H. unfold translate_line.
  destruct (str_eqb (strip line) []); [done|].
  apply replace_all_absent. by rewrite sorted_by_len_perm.
Qed.

Lemma map_id_on {A} (f : A -> A) (l : list A) :
  Forall (fun z => f z = z) l -> map f l = l.
Proof. induction 1 as [|z l Hz _ IH]; [done|]. simpl. by rewrite Hz, IH. Qed.

End Unchanged.

Section TableRanges.

Lemma fullwidth_alnum_table :
  forallb (fun c => str_eqb (halfwidth_of c) [c - 0xFEE0]%N) fullwidth_alnum
  = true.
Proof. vm_compute. reflexivity. Qed.

Lemma elem_of_offsets (base : N) (len : nat) (c : N) :
  (base <= c < base + N.of_nat len)%N ->
  c ∈ map (fun i => base + N.of_nat i)%N (seq 0 len).
Proof.
  intros Hc. apply list_elem_of_fmap. exists (N.to_nat (c - base)).
  split; [lia|]. apply list_elem_of_In, in_seq. lia.
Qed.

End TableRanges.

(** ** Texts that later entries and the three passes keep in one piece *)

Section Precedence.

Implicit Types (s r a b u old new line : str) (x y c : char)
  (entries : list (str * str)) (f : char -> str -> bool).

(** Where a match at the head of [s ++ r] ends: inside [s], or behind
    it. *)
Lemma startswith_app_cases p s r :
  startswith p (s ++ r) = true ->
  startswith p s = true
  \/ (length s < length p /\ startswith s p = true
      /\ startswith (drop (length s) p) r = true).
Proof.
  revert s. induction p as [|c p IH]; intros s.
  - intros _. left. by destruct s.
  - destruct s as [|y s].
    + intros H. right. cbn [length drop startswith]. split; [lia|done].
    + cbn [app startswith length drop].
      intros [Hc H]%andb_prop. rewrite Hc, N.eqb_sym, Hc. cbn [andb].
      destruct (IH s H) as [?|(? & ? & ?)]; [by left|right].
      split; [lia|done].
Qed.

Lemma startswith_occurs p s : startswith p s = true -> occurs p s = true.
Proof. intros H. destruct s; simpl in *; by rewrite H. Qed.

Lemma startswith_drop_occurs p s n :
  startswith p (drop n s) = true -> occurs p s = true.
Proof.
  intros H%startswith_occurs. apply occurs_spec in H as (a & b & H).
  apply occurs_spec. exists (take n s ++ a), b.
  by rewrite <- app_assoc, <- H, take_drop.
Qed.

Lemma overlap_false k u :
  overlap k u = false ->
  occurs k u = false /\ occurs u k = false
  /\ (forall n, 1 <= n < length k -> startswith (drop n k) u = false)
  /\ (forall n, 1 <= n < length u -> startswith (drop n u) k = false).
Proof.
  unfold overlap. rewrite !orb_false_iff. intros [[[H1 H2] H3] H4].
  split; [done|]. split; [done|].
  split; intros n Hn.
  - destruct (startswith (drop n k) u) eqn:E; [|done].
    rewrite <- H3. symmetry. apply existsb_exists. exists n.
    split; [|done]. apply in_seq. lia.
  - destruct (startswith (drop n u) k) eqn:E; [|done].
    rewrite <- H4. symmetry. apply existsb_exists. exists n.
    split; [|done]. apply in_seq. lia.
Qed.

(** A term that cannot lie across [u] matches nowhere inside [u]. *)
Lemma no_match_inside k u u1 u2 b :
  overlap k u = false -> u = u1 ++ u2 -> u2 <> [] ->
  startswith k (u2 ++ b) = false.
Proof.
  intros (H1 & H2 & _ & H4)%overlap_false Hu Hu2.
  assert (length u = length u1 + length u2) as Hlen.
  { by rewrite Hu, length_app. }
  assert (drop (length u1) u = u2) as Hdrop.
  { by rewrite Hu, drop_app_length. }
  destruct (startswith k (u2 ++ b)) eqn:E; [|done]. exfalso.
  apply startswith_app_cases in E as [E|(Hlt & E & _)].
  - rewrite <- Hdrop in E. apply startswith_drop_occurs in E. congruence.
  - destruct u1 as [|y u1].
    + simpl in Hu. subst u2. apply startswith_occurs in E. congruence.
    + rewrite <- Hdrop in E. rewrite H4 in E; [done|].
      destruct u2; [done|]. simpl in *. lia.
Qed.

Lemma replace_over_run old new u b :
  overlap old u = false ->
  replace old new (u ++ b) = u ++ replace old new b.
Proof.
  intros Hov.
  assert (old <> []) as Hne.
  { intros ->. apply overlap_false in Hov as [H _]. by destruct u. }
  assert (forall u1 u2, u = u1 ++ u2 ->
            replace old new (u2 ++ b) = u2 ++ replace old new b) as H.
  { intros u1 u2. revert u1. induction u2 as [|d u2 IH]; intros u1 Hu.
    - done.
    - change ((d :: u2) ++ b) with (d :: (u2 ++ b)).
      rewrite replace_step; [|done|].
      + rewrite (IH (u1 ++ [d])); [done|]. by rewrite <- app_assoc.
      + by apply (no_match_inside old u u1 (d :: u2) b). }
  by apply (H []).
Qed.

(** A match that starts in front of [u] ends in front of it when the
    term cannot lie across [u]. *)
Lemma startswith_before_run old a u b :
  overlap old u = false -> u <> [] ->
  startswith old (a ++ u ++ b) = true ->
  exists a2, a = old ++ a2.
Proof.
  intros Hov Hu E.
  apply startswith_app_cases in E as [E|(Hlt & Ea & E)].
  { exists (drop (length old) a). by apply startswith_inv. }
  exfalso. pose proof Hov as (H1 & H2 & H3 & _)%overlap_false.
  apply startswith_app_cases in E as [E|(_ & E & _)].
  - destruct a as [|x a].
    + change (drop (length []) old) with old in E.
      apply startswith_occurs in E. congruence.
    + rewrite H3 in E; [done|]. cbn [length] in *. lia.
  - apply startswith_drop_occurs in E. congruence.
Qed.

Lemma replace_keeps_run old new a u b :
  overlap old u = false ->
  exists a' b', replace old new (a ++ u ++ b) = a' ++ u ++ b'.
Proof.
  intros Hov.
  assert (old <> []) as Hne.
  { intros ->. apply overlap_false in Hov as [H _]. by destruct u. }
  destruct (decide (u = [])) as [->|Hu].
  { exists (replace old new (a ++ b)), []. by rewrite app_nil_r. }
  remember (length a) as n eqn:Hn. revert a Hn.
  induction n as [n IH] using lt_wf_ind. intros a Hn.
  destruct a as [|x a].
  - exists [], (replace old new b). rewrite !app_nil_l.
    by apply replace_over_run.
  - destruct (startswith old ((x :: a) ++ u ++ b)) eqn:E.
    + destruct (startswith_before_run old (x :: a) u b)
        as [a2 Ha2]; [done..|].
      rewrite Ha2, <- app_assoc, replace_head by done.
      destruct (IH (length a2)) with (a := a2) as (a' & b' & ->); [|done|].
      * subst n. rewrite Ha2, length_app. destruct old; [done|]. simpl. lia.
      * exists (new ++ a'), b'. by rewrite <- app_assoc.
    + change ((x :: a) ++ u ++ b) with (x :: a ++ u ++ b) in *.
      rewrite replace_step by done.
      destruct (IH (length a)) with (a := a) as (a' & b' & ->); [|done|].
      * subst n. simpl. lia.
      * by exists (x :: a'), b'.
Qed.

Lemma apart_keeps e a u b :
  apart u e = true ->
  exists a' b', replace e.1 e.2 (a ++ u ++ b) = a' ++ u ++ b'.
Proof.
  unfold apart. intros [H|H]%orb_prop.
  - apply str_eqb_eq in H. rewrite <- H, replace_same. by exists a, b.
  - apply replace_keeps_run. by apply negb_true_iff.
Qed.

Lemma replace_all_keeps_run entries a u b :
  Forall (fun e => apart u e = true) entries ->
  exists a' b', replace_all entries (a ++ u ++ b) = a' ++ u ++ b'.
Proof.
  intros He. revert a b.
  induction He as [|e entries Hsafe _ IH]; intros a b.
  - by exists a, b.
  - cbn [replace_all fold_left].
    destruct (apart_keeps e a u b Hsafe) as (a1 & b1 & ->).
    apply IH.
Qed.

(** An insertion pass that has nothing to put between two characters
    of [u] keeps [u] in one piece. *)
Lemma insert_after_inner f u b :
  (forall u1 x y u2 r, u = u1 ++ x :: y :: u2 -> f x (y :: r) = false) ->
  exists b', insert_after f (u ++ b) = u ++ b'.
Proof.
  induction u as [|x u IH]; intros Hf.
  - by exists (insert_after f b).
  - destruct IH as [b' IH].
    { intros u1 x' y u2 r ->. by apply (Hf (x :: u1) x' y u2). }
    destruct u as [|y u].
    + simpl. destruct (f x b); [by exists (space :: insert_after f b)|].
      by exists (insert_after f b).
    + exists b'. change ((x :: y :: u) ++ b) with (x :: ((y :: u) ++ b)).
      cbn [insert_after].
      change ((y :: u) ++ b) with (y :: (u ++ b)) at 1.
      rewrite (Hf [] x y u); [|done].
      by rewrite IH.
Qed.

Lemma insert_after_keeps_run f a u b :
  (forall u1 x y u2 r, u = u1 ++ x :: y :: u2 -> f x (y :: r) = false) ->
  exists a' b', insert_after f (a ++ u ++ b) = a' ++ u ++ b'.
Proof.
  intros Hf. destruct (insert_after_app f a (u ++ b)) as (a' & ->).
  destruct (insert_after_inner f u b Hf) as (b' & ->). by exists a', b'.
Qed.

Lemma steady_fullwidth u :
  steady u = true -> Forall (fun c => is_fullwidth c = false) u.
Proof.
  induction u as [|x u IH]; [done|]. cbn [steady].
  rewrite !andb_true_iff, negb_true_iff. intros [[Hx _] Hu].
  apply Forall_cons. split; [done|]. by apply IH.
Qed.

Lemma steady_inner u u1 x y u2 :
  steady u = true -> u = u1 ++ x :: y :: u2 ->
  is_punct x && negb (is_space y) = false
  /\ is_ascii_letter x && is_decimal y = false.
Proof.
  revert u. induction u1 as [|z u1 IH]; intros u Hu ->.
  - cbn [app steady] in Hu.
    rewrite !andb_true_iff, !negb_true_iff in Hu. tauto.
  - apply (IH (u1 ++ x :: y :: u2)); [|done].
    cbn [app steady] in Hu. rewrite !andb_true_iff in Hu. tauto.
Qed.

(** The three passes keep a steady text in one piece, wherever it
    stands. *)
Lemma normalize_keeps_steady a u b :
  steady u = true ->
  exists a' b', normalize (a ++ u ++ b) = a' ++ u ++ b'.
Proof.
  intros Hu. rewrite normalize_insert.
  assert (exists a1 b1, convert_fullwidth_to_halfwidth (a ++ u ++ b)
                        = a1 ++ u ++ b1) as (a1 & b1 & ->).
  { unfold convert_fullwidth_to_halfwidth.
    destruct (a ++ u ++ b) eqn:E; [by exists a, b|]. rewrite <- E.
    rewrite (replace_all_subst is_fullwidth)
      by (apply fullwidth_table_keys || apply fullwidth_table_clearing).
    rewrite !flat_map_app.
    rewrite (flat_map_subst_free is_fullwidth _ u).
    - by eexists _, _.
    - apply fullwidth_table_keys.
    - by apply steady_fullwidth. }
  assert (forall wp u1 x y u2 r,
            u = u1 ++ x :: y :: u2 -> letter_gap wp x (y :: r) = false)
    as Hletter.
  { intros wp u1 x y u2 r Hsplit.
    destruct (steady_inner u u1 x y u2 Hu Hsplit) as [_ H].
    unfold letter_gap. cbn [next_is_decimal]. by rewrite H. }
  unfold punct_spaced.
  destruct (insert_after_keeps_run punct_f a1 u b1) as (a2 & b2 & ->).
  { intros u1 x y u2 r Hsplit.
    by destruct (steady_inner u u1 x y u2 Hu Hsplit) as [H _]. }
  destruct (insert_after_keeps_run (letter_gap true) a2 u b2)
    as (a3 & b3 & ->); [by apply Hletter|].
  apply insert_after_keeps_run. by apply Hletter.
Qed.

(** A piece of one line is a piece of the text put together again. *)
Lemma join_map_keeps sep (g : str -> str) lines line a u b :
  line ∈ lines -> g line = a ++ u ++ b ->
  exists p q, join sep (map g lines) = p ++ u ++ q.
Proof.
  intros (L1 & L2 & ->)%list_elem_of_split Hg.
  rewrite map_app. cbn [map].
  destruct (join_decompose sep (map g L1) (g line) (map g L2))
    as (p & q & ->).
  rewrite Hg. exists (p ++ a), (b ++ q). by rewrite <- !app_assoc.
Qed.

(** The search for unknown terms and the ranges of its pattern. *)
Lemma is_japanese_searched c : is_japanese c = searched c.
Proof.
  unfold is_japanese, searched, in_searched_ranges.
  destruct (bool_decide_reflect
              ((12352 <= c <= 12543)%N \/ (19968 <= c <= 40879)%N)) as [H|H].
  - rewrite !orb_true_iff, !in_range_spec. lia.
  - rewrite !orb_false_iff. repeat split; apply in_range_false; lia.
Qed.

Lemma searched_kana_kanji c : searched c = true -> kana_kanji c = true.
Proof.
  rewrite <- is_japanese_searched. unfold is_japanese, kana_kanji.
  intros [[H|H]%orb_prop|H]%orb_prop.
  - by rewrite H.
  - rewrite H. by rewrite !orb_true_r.
  - apply in_range_spec in H.
    assert (in_range 19968 40959 c = true) as ->.
    { apply in_range_spec. lia. }
    by rewrite !orb_true_r.
Qed.

Lemma maximal_run_ext (p q : char -> bool) u s :
  (forall c, p c = q c) -> maximal_run p u s <-> maximal_run q u s.
Proof.
  intros Hpq. unfold maximal_run.
  split; intros (Hne & Hall & a & b & Hs & Ha & Hb).
  - split; [done|]. split.
    { eapply Forall_impl; [exact Hall|]. intros c Hc. simpl in *.
      by rewrite <- Hpq. }
    exists a, b. split; [done|].
    split; intros z Hz; rewrite <- Hpq; auto.
  - split; [done|]. split.
    { eapply Forall_impl; [exact Hall|]. intros c Hc. simpl in *.
      by rewrite Hpq. }
    exists a, b. split; [done|].
    split; intros z Hz; rewrite Hpq; auto.
Qed.

End Precedence.

(** * The claims *)

Section LongestMatch.

Implicit Types (t : translator) (l tl s ts text line : str).

(** C2 (amended).  For every dictionary with a term [s] that is a
    proper part of a term [l], [sorted] puts the entry of [l] in front
    of the entry of [s], and in front of [l] only entries whose terms
    are at least as long: the shorter entry is tried on the text that
    the replacement of [l] has left.  When a non-blank line of the
    input still holds [l] at the moment its entry is reached, no entry
    tried after it can touch its translation [tl] (each maps its term
    to itself or has a term that cannot lie across [tl]) and [tl] is
    a text that the three passes leave alone, the text that
    [translate_text] answers holds [tl]. *)
Theorem translate_longest_match_first t l tl s ts text line interactive :
  NoDup (keys (translations t)) ->
  (l, tl) ∈ translations t -> (s, ts) ∈ translations t ->
  proper_substring s l ->
  line ∈ split nl text -> strip line <> [] ->
  occurs l (replace_all (applied_before (translations t) l) line) = true ->
  Forall (fun e => apart tl e = true) (applied_after (translations t) l) ->
  steady tl = true ->
  sorted_by_len (translations t)
  = applied_before (translations t) l
    ++ (l, tl) :: applied_after (translations t) l
  /\ (s, ts) ∈ applied_after (translations t) l
  /\ Forall (fun e => length l <= length e.1)
       (applied_before (translations t) l)
  /\ translate_line (translations t) line
     = replace_all (applied_after (translations t) l)
         (replace l tl
            (replace_all (applied_before (translations t) l) line))
  /\ occurs tl (value_str (translate_text t (VStr text) interactive).1)
     = true.
Proof.
  intros Hnd Hl Hs Hsub Hline Hne Hocc Hafter Htl.
  set (d := translations t) in *.
  pose proof (sorted_by_len_perm d) as Hperm.
  pose proof (sorted_by_len_sorted d) as Hsorted.
  assert (sorted_by_len d
          = applied_before d l ++ (l, tl) :: applied_after d l) as Heq.
  { apply entries_split.
    - by rewrite (keys_perm _ _ Hperm).
    - by rewrite Hperm. }
  rewrite Heq in Hsorted.
  apply sorted_split in Hsorted as [Hbefore _]. simpl in Hbefore.
  assert (translate_line d line
          = replace_all (applied_after d l)
              (replace l tl (replace_all (applied_before d l) line)))
    as Htr.
  { unfold translate_line. apply str_eqb_neq in Hne. rewrite Hne.
    rewrite Heq at 1. by rewrite replace_all_app. }
  split; [exact Heq|]. split; [|split; [exact Hbefore|split; [exact Htr|]]].
  - assert ((s, ts) ∈ applied_before d l ++ (l, tl) :: applied_after d l)
      as Hin.
    { by rewrite <- Heq, Hperm. }
    apply elem_of_app in Hin as [Hin|Hin].
    + rewrite Forall_forall in Hbefore. specialize (Hbefore _ Hin).
      apply proper_substring_shorter in Hsub. simpl in Hbefore. lia.
    + apply elem_of_cons in Hin as [[= -> ->]|Hin]; [|done].
      by destruct Hsub as [_ []].
  - assert ((translate_text t (VStr text) interactive).1
            = VStr (normalize
                      (join nl (map (translate_line d) (split nl text)))))
      as ->.
    { unfold translate_text. destruct text as [|c text]; [|done].
      apply list_elem_of_singleton in Hline. by subst line. }
    cbn [value_str].
    apply (replace_occurs l tl) in Hocc.
    apply occurs_spec in Hocc as (a1 & b1 & Hocc).
    destruct (replace_all_keeps_run (applied_after d l) a1 tl b1 Hafter)
      as (a2 & b2 & Hrest).
    rewrite <- Hocc, <- Htr in Hrest.
    destruct (join_map_keeps nl (translate_line d) (split nl text)
                line a2 tl b2 Hline Hrest) as (p & q & ->).
    destruct (normalize_keeps_steady p tl q Htl) as (a' & b' & ->).
    apply occurs_spec. by exists a', b'.
Qed.

Lemma translate_longest_match_first_witness :
  sorted_by_len (translations builtin)
  = applied_before (translations builtin) (lit "総丈")
    ++ (lit "総丈", lit "Total Length")
       :: applied_after (translations builtin) (lit "総丈")
  /\ (lit "丈", lit "Length")
     ∈ applied_after (translations builtin) (lit "総丈")
  /\ Forall (fun e => length (lit "総丈") <= length e.1)
       (applied_before (translations builtin) (lit "総丈"))
  /\ translate_line (translations builtin) (lit "総丈78cm 袖丈60cm")
     = replace_all (applied_after (translations builtin) (lit "総丈"))
         (replace (lit "総丈") (lit "Total Length")
            (replace_all (applied_before (translations builtin) (lit "総丈"))
               (lit "総丈78cm 袖丈60cm")))
  /\ occurs (lit "Total Length")
       (value_str
          (translate_text builtin
             (VStr (text_of ["総丈78cm 袖丈60cm"; "肩幅40cm"]%string))
             false).1)
     = true.
Proof.
  apply (translate_longest_match_first builtin
           (lit "総丈") (lit "Total Length") (lit "丈") (lit "Length")
           (text_of ["総丈78cm 袖丈60cm"; "肩幅40cm"]%string)
           (lit "総丈78cm 袖丈60cm") false).
  - apply (bool_decide_unpack _). vm_compute. exact I.
  - apply (bool_decide_unpack _). vm_compute. exact I.
  - apply (bool_decide_unpack _). vm_compute. exact I.
  - split.
    + exists (lit "総"), []. reflexivity.
    + discriminate.
  - apply (bool_decide_unpack _). vm_compute. exact I.
  - discriminate.
  - vm_compute. reflexivity.
  - apply (bool_decide_unpack _). vm_compute. exact I.
  - vm_compute. reflexivity.
Defined.

End LongestMatch.

(** The built-in dictionary on the example of the specification. *)
Example translate_total_length :
  (translate_text builtin (VStr (lit "総丈78cm")) false).1
  = VStr (lit "Total Length 78cm").
Proof. vm_compute. reflexivity. Qed.

(** C2 as stated fails: with the learned term 七分袖 (three characters,
    so tried before 袖丈) the line 七分袖丈55cm contains the longer term
    袖丈 of the pair 丈, 袖丈, yet its translation is not in the output:
    the occurrence is broken up and its 丈 goes to the shorter entry. *)
Lemma longest_match_counterexample :
  NoDup (keys (translations sleeves))
  /\ (lit "袖丈", lit "Sleeve Length") ∈ translations sleeves
  /\ (lit "丈", lit "Length") ∈ translations sleeves
  /\ proper_substring (lit "丈") (lit "袖丈")
  /\ occurs (lit "袖丈") (lit "七分袖丈55cm") = true
  /\ (translate_text sleeves (VStr (lit "七分袖丈55cm")) false).1
     = VStr (lit "Three-Quarter SleeveLength 55cm")
  /\ occurs (lit "Sleeve Length") (lit "Three-Quarter SleeveLength 55cm")
     = false.
Proof.
  split; [apply (bool_decide_unpack _); vm_compute; exact I|].
  split; [apply (bool_decide_unpack _); vm_compute; exact I|].
  split; [apply (bool_decide_unpack _); vm_compute; exact I|].
  split; [split; [by exists (lit "袖"), []|discriminate]|].
  split; [vm_compute; reflexivity|].
  split; vm_compute; reflexivity.
Qed.

(** An entry tried later can still rewrite the translation of the
    longer term: with the term To between 総丈 and 丈, the text Total
    Length that the entry of 総丈 has put is changed before 丈 is
    tried. *)
Example later_term_rewrites_translation :
  sorted_by_len (translations latin_term) = translations latin_term
  /\ (translate_text latin_term (VStr (lit "総丈78cm")) false).1
     = VStr (lit "XXtal Length 78cm")
  /\ occurs (lit "Total Length") (lit "XXtal Length 78cm") = false.
Proof. repeat split; vm_compute; reflexivity. Qed.

(** The three passes can still put a space into the translation of
    the longer term. *)
Example passes_space_translation :
  (translate_text colon_translation (VStr (lit "総丈78cm")) false).1
  = VStr (lit "Total: Length 78cm")
  /\ occurs (lit "Total:Length") (lit "Total: Length 78cm") = false.
Proof. split; vm_compute; reflexivity. Qed.

Section NormalizeClaims.

Implicit Types (s : str).

(** C3.  The three-pass normalization (full-width conversion, then
    punctuation spacing, then spacing between letters and numbers) is
    idempotent: [normalize (normalize x) = normalize x] for every
    string [x]. *)
Theorem normalize_idempotent s : normalize (normalize s) = normalize s.
Proof.
  apply normalize_fixed; rewrite normalize_insert.
  - do 2 (apply insert_after_Forall; [done|]).
    unfold punct_spaced. apply insert_after_Forall; [done|].
    apply convert_clears.
  - do 2 apply punct_settled_preserved. apply punct_spaced_settled.
  - apply letter_settled.
Qed.

(** C6 (amended).  The three substitutions of the punctuation pass
    together are one pass from left to right that puts exactly one
    space behind every [)], [,] and [:] that is not followed by a
    white-space character, so also behind one that ends the text, and
    puts nothing behind one that white space (a line break included)
    follows. *)
Theorem add_spacing_after_punctuation_one_pass s :
  add_spacing_after_punctuation s = punct_spaced s.
Proof.
  rewrite add_spacing_after_punctuation_passes.
  apply punct_passes.
Qed.

(** C6 as stated fails at the end of the text: the closing parenthesis
    of [(S)] ends the line and still gets a space. *)
Lemma punctuation_end_of_text_counterexample :
  add_spacing_after_punctuation (lit "(S)") = lit "(S) "
  /\ add_spacing_after_punctuation (lit "(S)")
     <> punct_spaced_as_claimed (lit "(S)").
Proof. split; [vm_compute; reflexivity|]. vm_compute. discriminate. Qed.

End NormalizeClaims.

Section Numbers.

Implicit Types (t : translator) (text a run b : str).

Lemma translate_line_keeps_digits d a run b :
  forallb digit_safe d = true -> digits run ->
  exists a' b', translate_line d (a ++ run ++ b) = a' ++ run ++ b'.
Proof.
  intros Hd Hrun. unfold translate_line.
  destruct (str_eqb (strip (a ++ run ++ b)) []); [by exists a, b|].
  apply replace_all_keeps_digits; [|done].
  rewrite sorted_by_len_perm. by apply forallb_Forall.
Qed.

Lemma translate_text_str t s interactive :
  s <> [] ->
  (translate_text t (VStr s) interactive).1
  = VStr (normalize
            (join nl (map (translate_line (translations t)) (split nl s)))).
Proof. intros Hs. unfold translate_text. by destruct s. Qed.

(** C4 (amended).  When every entry of the dictionary either maps a
    term to itself or has a non-empty term without half-width digits
    (the built-in table and every term learned from a cell are of this
    kind), each run of half-width digits of the input is in the output
    of [translate_text] unchanged and in one piece: spaces are put
    around it, never into it. *)
Theorem translate_text_keeps_digits t text interactive a run b :
  forallb digit_safe (translations t) = true ->
  text = a ++ run ++ b ->
  Forall (fun c => is_ascii_digit c = true) run ->
  exists a' b',
    (translate_text t (VStr text) interactive).1 = VStr (a' ++ run ++ b').
Proof.
  intros Hd -> Hrun.
  destruct (decide (a ++ run ++ b = [])) as [E|Hne].
  { rewrite E. exists a, b. by rewrite E. }
  rewrite translate_text_str by done.
  destruct (split_decompose nl a run b) as (L1 & pre & post & L2 & ->).
  { eapply Forall_impl; [exact Hrun|]. apply digit_not_nl. }
  rewrite map_app. cbn [map].
  destruct (translate_line_keeps_digits (translations t) pre run post)
    as (a1 & b1 & ->); [done..|].
  destruct (join_decompose nl (map (translate_line (translations t)) L1)
              (a1 ++ run ++ b1)
              (map (translate_line (translations t)) L2)) as (p & q & ->).
  destruct (normalize_keeps_digits (p ++ a1) run (b1 ++ q) Hrun)
    as (a' & b' & H).
  exists a', b'. rewrite <- H. do 2 f_equal. by rewrite <- !app_assoc.
Qed.

Lemma translate_text_keeps_digits_witness :
  exists a' b',
    (translate_text builtin (VStr (lit "股下78cm")) true).1
    = VStr (a' ++ lit "78" ++ b').
Proof.
  apply (translate_text_keeps_digits builtin (lit "股下78cm") true
           (lit "股下") (lit "78") (lit "cm")).
  - vm_compute. reflexivity.
  - vm_compute. reflexivity.
  - apply (bool_decide_unpack _). vm_compute. exact I.
Defined.

(** C4 as stated fails for a dictionary with a digit in a term: with
    the learned entry 0 -> zero the run 100 of コットン100% is not in
    the output. *)
Lemma digits_counterexample :
  (translate_text zero_learned (VStr (lit "コットン100%")) false).1
  = VStr (lit "Cotton 1zerozero%")
  /\ occurs (lit "100") (lit "Cotton 1zerozero%") = false.
Proof. split; vm_compute; reflexivity. Qed.

End Numbers.

Section Segmenter.

Implicit Types (content line : str).

(** For every cell with a marker the care text is made of the blank
    and the marker lines alone. *)
Lemma care_instructions_only_care_lines content i :
  content <> [] ->
  first_asterisk_index (split nl (strip content)) = Some i ->
  (split_materials_content content).1.2
  = strip (join nl (filter (fun l => is_care_line l = true)
                      (drop i (split nl (strip content))))).
Proof.
  intros Hne Hi. unfold split_materials_content.
  destruct content as [|x r]; [done|]. rewrite Hi.
  pose proof (country_loop_care (drop i (split nl (strip (x :: r)))) [] [])
    as H.
  destruct (fold_left country_step _ _) as [country care_lines].
  simpl in H. by rewrite H.
Qed.

(** C1 (the code departs from the claim).  On a cell with a marker
    line, the line 中国製, a second marker line and the line 日本製
    the country is the last line, 日本製, but the superseded line
    中国製 is in none of the three parts: the care text has the two
    marker lines only. *)
Theorem split_materials_content_drops_superseded :
  split_materials_content
    (text_of ["綿100%"; "※手洗い"; "中国製"; "※漂白剤不可"; "日本製"]%string)
  = (lit "綿100%", text_of ["※手洗い"; "※漂白剤不可"]%string, lit "日本製")
  /\ occurs (lit "中国製") (text_of ["※手洗い"; "※漂白剤不可"]%string) = false.
Proof. split; vm_compute; reflexivity. Qed.

(** C5 (amended).  When no line of the cell has the marker, the
    materials are the cell without its leading and trailing white
    space, and the care text and the country are empty. *)
Theorem split_materials_content_no_marker content :
  Forall (fun line => contains marker line = false) (split nl content) ->
  split_materials_content content = (strip content, [], []).
Proof.
  intros H. unfold split_materials_content.
  destruct content as [|x r] eqn:E; [done|]. rewrite <- E in *.
  rewrite first_asterisk_index_none; [done|].
  assert (marker ∉ content) as Hm.
  { intros Hin. destruct (split_covers nl content marker Hin marker_not_nl)
      as (line & Hl & Hc).
    rewrite Forall_forall in H. apply H in Hl.
    apply contains_false in Hl. done. }
  apply Forall_forall. intros line Hl. apply contains_false. intros Hc.
  apply Hm, strip_elem. by apply (split_elem nl _ line).
Qed.

Lemma split_materials_content_no_marker_witness :
  split_materials_content (lit "コットン100%")
  = (strip (lit "コットン100%"), [], []).
Proof.
  apply (split_materials_content_no_marker (lit "コットン100%")).
  apply (bool_decide_unpack _). vm_compute. exact I.
Defined.

(** C5 as stated fails on a cell that ends with a space: the
    materials are not the entire cell. *)
Lemma no_marker_counterexample :
  split_materials_content (lit "コットン100% ") = (lit "コットン100%", [], [])
  /\ (split_materials_content (lit "コットン100% ")).1.1
     <> lit "コットン100% ".
Proof. split; [vm_compute; reflexivity|]. vm_compute. discriminate. Qed.

End Segmenter.

Section Rows.

Implicit Types (t : translator) (row : list str) (v : value).

(** C7 (amended).  For every row that is not empty: without the
    materials column (the length of the row is at most its index) the
    record has two fields, the dimension text and its translation; with
    the column (an index below the length of the row, and not below
    minus the length when it counts from the end) it has seven. *)
Theorem process_row_shape t row interactive materials_column :
  row <> [] ->
  ((Z.of_nat (length row) <= materials_column)%Z ->
   exists dims translated t',
     process_row t row interactive materials_column
     = Some ([VStr dims; translated], t')
     /\ head row = Some dims
     /\ translate_text t (VStr dims) interactive = (translated, t'))
  /\ ((- Z.of_nat (length row) <= materials_column
       < Z.of_nat (length row))%Z ->
      exists record t',
        process_row t row interactive materials_column = Some (record, t')
        /\ length record = 7).
Proof.
  intros Hrow. destruct row as [|dims rest]; [done|].
  unfold process_row.
  destruct (translate_text t (VStr dims) interactive)
    as [translated t1] eqn:Et.
  split.
  - intros Hlen. exists dims, translated, t1.
    destruct (Z.ltb_spec materials_column (Z.of_nat (length (dims :: rest))));
      [lia|done].
  - intros Hlen.
    destruct (Z.ltb_spec materials_column (Z.of_nat (length (dims :: rest))));
      [|lia].
    destruct (index_in_range (dims :: rest) materials_column Hlen)
      as [cell ->].
    destruct (split_materials_content cell) as [[materials care] country].
    destruct (translate_text t1 (VStr materials) interactive) as [m t2].
    by eexists _, _.
Qed.

Lemma process_row_shape_witness :
  (exists dims translated t',
     process_row builtin [lit "総丈78cm"] false 1
     = Some ([VStr dims; translated], t')
     /\ head [lit "総丈78cm"] = Some dims
     /\ translate_text builtin (VStr dims) false = (translated, t'))
  /\ (exists record t',
        process_row builtin [lit "総丈78cm"; lit "綿100%"] false 1
        = Some (record, t')
        /\ length record = 7).
Proof.
  split.
  - apply (process_row_shape builtin [lit "総丈78cm"] false 1).
    + discriminate.
    + simpl. lia.
  - apply (process_row_shape builtin [lit "総丈78cm"; lit "綿100%"] false 1).
    + discriminate.
    + simpl. lia.
Defined.

(** C7 as stated fails on the empty row, which [csv.reader] yields
    for a blank line: it has no materials column and its record has
    one field. *)
Lemma empty_row_counterexample :
  (Z.of_nat (length (@nil (list N))) <= 1)%Z
  /\ process_row builtin [] true 1 = Some ([VStr []], builtin)
  /\ length [VStr []] <> 2.
Proof. split; [done|]. split; [reflexivity|discriminate]. Qed.

(** C10.  The empty string, and every value that is not a string,
    comes back from [translate_text] and [translate_care_instructions]
    as it is, and the translator is left as it was. *)
Theorem translate_degenerate_input t v interactive :
  v = VStr [] \/ isinstance_str v = false ->
  translate_text t v interactive = (v, t)
  /\ translate_care_instructions t v = v.
Proof.
  intros [->|H]; [done|].
  unfold translate_text, translate_care_instructions.
  rewrite H. simpl. by rewrite !orb_true_r.
Qed.

Lemma translate_degenerate_input_witness :
  translate_text builtin VNone true = (VNone, builtin)
  /\ translate_care_instructions builtin VNone = VNone.
Proof.
  apply (translate_degenerate_input builtin VNone true).
  right. reflexivity.
Defined.

End Rows.

Section CareLabels.

Implicit Types (t : translator) (s : str).

(** C8.  [translate_care_instructions] is the substitution of the
    care-label entries alone, longer terms first (the empty text is
    answered as it is), and nothing is normalized afterwards: where no
    care-label term occurs the text comes back exactly as it was,
    full-width characters and unspaced punctuation included. *)
Theorem translate_care_instructions_only_substitutes t s :
  exists entries,
    entries ≡ₚ care_labels t
    /\ StronglySorted longer_first entries
    /\ translate_care_instructions t (VStr s)
       = VStr (if bool_decide (s = []) then s else replace_all entries s)
    /\ (Forall (fun e => occurs e.1 s = false) (care_labels t) ->
        translate_care_instructions t (VStr s) = VStr s).
Proof.
  exists (sorted_by_len (care_labels t)).
  split; [apply sorted_by_len_perm|]. split; [apply sorted_by_len_sorted|].
  assert (translate_care_instructions t (VStr s)
          = VStr (if bool_decide (s = []) then s
                  else replace_all (sorted_by_len (care_labels t)) s)) as H.
  { unfold translate_care_instructions. by destruct s. }
  split; [exact H|]. intros Habsent. rewrite H. f_equal.
  destruct (bool_decide (s = [])); [done|].
  apply replace_all_absent. by rewrite sorted_by_len_perm.
Qed.

Lemma translate_care_instructions_only_substitutes_witness :
  translate_care_instructions laundry (VStr (lit "※（ドライ）:30"))
  = VStr (lit "※（ドライ）:30").
Proof.
  destruct (translate_care_instructions_only_substitutes laundry
              (lit "※（ドライ）:30")) as (entries & _ & _ & _ & H).
  apply H. apply (bool_decide_unpack _). vm_compute. exact I.
Defined.

(** The same text through the two translations: the care translation
    replaces the term and leaves the rest, [translate_text] also
    converts the parentheses and puts its spaces. *)
Example care_text_not_normalized :
  translate_care_instructions laundry (VStr (lit "※（手洗い）:30"))
  = VStr (lit "※（Hand wash）:30")
  /\ (translate_text laundry (VStr (lit "※（手洗い）:30")) false).1
     = VStr (lit "※(手洗い) : 30").
Proof. split; vm_compute; reflexivity. Qed.

End CareLabels.

Section UnknownTerms.

Implicit Types (t : translator) (text term : str).

Lemma is_unknown_spec d term :
  is_unknown d term = true
  <-> (term ∉ keys d) /\ 1 < length term
      /\ Re.match_all is_measure_char term = false.
Proof.
  unfold is_unknown. rewrite !andb_true_iff, !negb_true_iff.
  rewrite Nat.ltb_lt. rewrite <- (not_true_iff_false (has_key d term)).
  rewrite has_key_spec. tauto.
Qed.

(** C9 (amended).  The unknown terms of a text are exactly its maximal
    runs of characters in U+3040..U+30FF (the blocks Hiragana and
    Katakana) and U+4E00..U+9FAF (the CJK Unified Ideographs up to
    U+9FAF) that are longer than one character, are not keys of the
    dictionary and are not made of numbers and unit characters alone.
    They are only reported: the text that [translate_text] answers is
    the same with and without the search, and the dictionary is not
    changed by it.  The characters searched for are Hiragana, Katakana
    and Kanji, but not all of them. *)
Theorem extract_japanese_terms_exactly t text :
  (forall term,
     term ∈ extract_japanese_terms t text
     <-> maximal_run searched term text
         /\ 1 < length term
         /\ (term ∉ keys (translations t))
         /\ ~ measure_only term)
  /\ (translate_text t (VStr text) true).1
     = (translate_text t (VStr text) false).1
  /\ translations (translate_text t (VStr text) true).2 = translations t
  /\ unknown_terms (translate_text t (VStr text) true).2
     = unknown_terms t ∪ (if bool_decide (text = []) then ∅
                          else extract_japanese_terms t text)
  /\ (forall c, searched c = true -> kana_kanji c = true).
Proof.
  split; [|split; [|split; [|split]]].
  - intros term. rewrite elem_of_extract, is_unknown_spec.
    rewrite (maximal_run_ext is_japanese searched term text
               is_japanese_searched).
    assert (maximal_run searched term text ->
            Re.match_all is_measure_char term = false
            /\ ~ measure_only term) as Hmeasure.
    { intros (Hne & Hall & _). apply japanese_run_not_measure; [done|].
      eapply Forall_impl; [exact Hall|]. intros c Hc. simpl in *.
      by rewrite is_japanese_searched. }
    split.
    + intros ((Hk & Hlen & _) & Hrun). split; [done|]. split; [done|].
      split; [done|]. by apply Hmeasure.
    + intros (Hrun & Hlen & Hk & _). split; [|done].
      split; [done|]. split; [done|]. by apply Hmeasure.
  - unfold translate_text. by destruct text.
  - unfold translate_text. destruct text; [done|]. simpl.
    by destruct (bool_decide (extract_japanese_terms t (_ :: _) = ∅)).
  - unfold translate_text. destruct text as [|c r].
    + simpl. by rewrite union_empty_r_L.
    + simpl. destruct (bool_decide_reflect
                         (extract_japanese_terms t (c :: r) = ∅)) as [E|E].
      * rewrite E. by rewrite union_empty_r_L.
      * done.
  - apply searched_kana_kanji.
Qed.

(** C9 as stated fails: half-width Katakana are outside the ranges of
    the pattern, so the run ｺｯﾄﾝ of ｺｯﾄﾝ100%, four Katakana characters
    that are no key of the dictionary, is not reported; neither is 人々,
    whose iteration mark ends the run after one character. *)
Lemma halfwidth_katakana_counterexample :
  maximal_run kana_kanji (lit "ｺｯﾄﾝ") (lit "ｺｯﾄﾝ100%")
  /\ 1 < length (lit "ｺｯﾄﾝ")
  /\ (lit "ｺｯﾄﾝ" ∉ keys (translations builtin))
  /\ ~ measure_only (lit "ｺｯﾄﾝ")
  /\ extract_japanese_terms builtin (lit "ｺｯﾄﾝ100%") = ∅
  /\ maximal_run kana_kanji (lit "人々") (lit "人々")
  /\ extract_japanese_terms builtin (lit "人々") = ∅.
Proof.
  assert (forall text, Re.findall is_japanese text = [] ->
                       extract_japanese_terms builtin text = ∅) as Hnone.
  { intros text H. unfold extract_japanese_terms. rewrite H.
    apply elem_of_equiv_empty_L. intros x [_ Hx]%elem_of_filter.
    by apply elem_of_empty in Hx. }
  split; [|split; [|split; [|split; [|split; [|split]]]]].
  - split; [discriminate|]. split.
    + apply (bool_decide_unpack _). vm_compute. exact I.
    + exists [], (lit "100%"). split; [reflexivity|].
      split; [discriminate|]. intros y [= <-]. vm_compute. reflexivity.
  - vm_compute. lia.
  - apply (bool_decide_unpack _). vm_compute. exact I.
  - intros [_ H]. apply Forall_cons in H as [H _]. vm_compute in H.
    discriminate.
  - apply Hnone. vm_compute. reflexivity.
  - split; [discriminate|]. split.
    + apply (bool_decide_unpack _). vm_compute. exact I.
    + exists [], []. split; [reflexivity|]. split; discriminate.
  - apply elem_of_equiv_empty_L. intros x.
    unfold extract_japanese_terms.
    rewrite elem_of_filter, elem_of_list_to_set.
    assert (Re.findall is_japanese (lit "人々") = [lit "人"]) as ->
      by (vm_compute; reflexivity).
    intros [Hx ->%list_elem_of_singleton]. vm_compute in Hx. discriminate.
Qed.

End UnknownTerms.

(** * Further properties of the source *)

Section NormalizerProperties.

Implicit Types (s r a : str) (x y c : char).

(** X1.  [convert_fullwidth_to_halfwidth] is a character-wise
    substitution: every character that is a key of the table becomes
    the value of its entry, every other character stays, whatever the
    order in which the entries are applied. *)
Theorem convert_fullwidth_to_halfwidth_charwise s :
  convert_fullwidth_to_halfwidth s = flat_map halfwidth_of s.
Proof.
  destruct s as [|x r]; [done|].
  unfold convert_fullwidth_to_halfwidth, halfwidth_of.
  apply (replace_all_subst is_fullwidth).
  - apply fullwidth_table_keys.
  - apply fullwidth_table_clearing.
Qed.

(** X2.  The result of [convert_fullwidth_to_halfwidth] holds no key
    of the table any more, and converting it again changes nothing. *)
Theorem convert_fullwidth_to_halfwidth_idempotent s :
  Forall (fun c => [c] ∉ keys fullwidth_to_halfwidth)
    (convert_fullwidth_to_halfwidth s)
  /\ convert_fullwidth_to_halfwidth (convert_fullwidth_to_halfwidth s)
     = convert_fullwidth_to_halfwidth s.
Proof.
  split.
  - eapply Forall_impl; [apply convert_clears|]. intros c Hc Hin.
    simpl in Hc. apply not_true_iff_false in Hc. apply Hc.
    unfold is_fullwidth. apply existsb_exists.
    apply list_elem_of_fmap in Hin as (e & He & Hin).
    exists e. split; [by apply list_elem_of_In|].
    apply str_eqb_eq. by rewrite He.
  - apply convert_untouched, convert_clears.
Qed.

(** X3.  In the result of [add_spacing_after_punctuation] every [)],
    [,] and [:] is followed by a white-space character, and the pass
    applied to its own result changes nothing. *)
Theorem add_spacing_after_punctuation_settled s :
  (forall a x r,
     add_spacing_after_punctuation s = a ++ x :: r ->
     is_punct x = true ->
     exists y r', r = y :: r' /\ is_space y = true)
  /\ add_spacing_after_punctuation (add_spacing_after_punctuation s)
     = add_spacing_after_punctuation s.
Proof.
  assert (settled punct_f (add_spacing_after_punctuation s)) as Hs.
  { rewrite add_spacing_after_punctuation_passes, punct_passes.
    apply punct_spaced_settled. }
  split.
  - intros a x r Heq Hx.
    pose proof (settled_at punct_f _ a x r Hs Heq) as H.
    unfold punct_f in H. rewrite Hx in H. simpl in H.
    apply negb_false_iff in H. destruct r as [|y r']; [done|].
    by exists y, r'.
  - rewrite (add_spacing_after_punctuation_passes
               (add_spacing_after_punctuation s)), punct_passes.
    by apply settled_id.
Qed.

(** X4.  The percent substitution of [add_spaces_after_materials] is
    covered by the plain one: the function is the single substitution
    of [([A-Za-z]+)(\d+)]. *)
Theorem add_spaces_after_materials_one_substitution s :
  add_spaces_after_materials s = Re.sub (Re.letters_digits false) s.
Proof.
  rewrite add_spaces_after_materials_insert, sub_letters_digits.
  apply letter_passes_one.
Qed.

(** X5.  In the result of [add_spaces_after_materials] no letter of
    [A-Za-z] is directly followed by a decimal digit, and the function
    applied to its own result changes nothing. *)
Theorem add_spaces_after_materials_settled s :
  (forall a x y r,
     add_spaces_after_materials s = a ++ x :: y :: r ->
     is_ascii_letter x = true -> is_decimal y = false)
  /\ add_spaces_after_materials (add_spaces_after_materials s)
     = add_spaces_after_materials s.
Proof.
  assert (settled (letter_gap false) (add_spaces_after_materials s)) as Hs.
  { rewrite add_spaces_after_materials_insert. apply letter_settled. }
  split.
  - intros a x y r Heq Hx.
    pose proof (settled_at _ _ a x (y :: r) Hs Heq) as H.
    unfold letter_gap in H. rewrite Hx in H. simpl in H.
    by rewrite andb_true_r in H.
  - rewrite (add_spaces_after_materials_insert
               (add_spaces_after_materials s)).
    rewrite (settled_id (letter_gap true)).
    + by apply settled_id.
    + revert Hs. apply settled_impl, letter_gap_weaken.
Qed.

(** X6.  The two spacing functions only add spaces: the text is kept
    as a subsequence of the result, and the result without its spaces
    is the text without its spaces. *)
Theorem spacing_only_adds_spaces s :
  (s `sublist_of` add_spacing_after_punctuation s
   /\ without_spaces (add_spacing_after_punctuation s) = without_spaces s)
  /\ (s `sublist_of` add_spaces_after_materials s
      /\ without_spaces (add_spaces_after_materials s) = without_spaces s).
Proof.
  split.
  - rewrite add_spacing_after_punctuation_passes. split.
    + do 2 (etrans; [|apply insert_after_sublist]).
      apply insert_after_sublist.
    + by rewrite !insert_after_without_spaces.
  - rewrite add_spaces_after_materials_insert. split.
    + etrans; [|apply insert_after_sublist]. apply insert_after_sublist.
    + by rewrite !insert_after_without_spaces.
Qed.

End NormalizerProperties.

Section SegmenterProperties.

Implicit Types (content M Y line : str) (CL : list str).

(** X7.  The three parts that [split_materials_content] answers
    never begin or end with white space: stripping any of them again
    changes nothing. *)
Theorem split_materials_content_stripped content :
  strip (split_materials_content content).1.1
  = (split_materials_content content).1.1
  /\ strip (split_materials_content content).1.2
     = (split_materials_content content).1.2
  /\ strip (split_materials_content content).2
     = (split_materials_content content).2.
Proof.
  destruct (decide (content = [])) as [->|Hne]; [done|].
  destruct (first_asterisk_index (split nl (strip content))) as [i|] eqn:Ei.
  - rewrite (split_materials_content_marker content i Hne Ei). simpl.
    split; [apply strip_strip|]. split; [apply strip_strip|].
    destruct (last _) as [y|] eqn:Ey; [|done]. simpl.
    apply last_Some_elem_of, list_elem_of_fmap in Ey as (line & -> & _).
    apply strip_strip.
  - unfold split_materials_content. destruct content; [done|].
    rewrite Ei. simpl. split; [apply strip_strip|done].
Qed.

(** X8.  The materials part never holds the marker: it is made of
    the lines in front of the first line with a marker. *)
Theorem split_materials_content_materials_no_marker content :
  marker ∉ (split_materials_content content).1.1.
Proof.
  destruct (decide (content = [])) as [->|Hne].
  { simpl. by intros ?%elem_of_nil. }
  destruct (first_asterisk_index (split nl (strip content))) as [i|] eqn:Ei.
  - rewrite (split_materials_content_marker content i Hne Ei). simpl.
    intros Hin%strip_elem.
    apply join_elem in Hin as [Hin|(l & Hl & Hin)];
      [by apply marker_not_nl in Hin|].
    apply first_asterisk_index_some in Ei as [Hall _].
    rewrite Forall_forall in Hall. apply Hall in Hl.
    by apply contains_false in Hl.
  - unfold split_materials_content. destruct content as [|x r]; [done|].
    rewrite Ei. simpl. intros Hin.
    apply first_asterisk_index_none_inv in Ei.
    destruct (split_covers nl _ marker Hin marker_not_nl) as (l & Hl & Hc).
    rewrite Forall_forall in Ei. apply Ei in Hl.
    by apply contains_false in Hl.
Qed.

(** X9.  The country is empty, or it is a line of the stripped cell,
    itself stripped, that is not blank and does not start with the
    marker. *)
Theorem split_materials_content_country content :
  (split_materials_content content).2 = []
  \/ exists line,
       line ∈ split nl (strip content)
       /\ (split_materials_content content).2 = strip line
       /\ strip line <> []
       /\ startswith [marker] (strip line) = false.
Proof.
  destruct (decide (content = [])) as [->|Hne]; [by left|].
  destruct (first_asterisk_index (split nl (strip content))) as [i|] eqn:Ei.
  - rewrite (split_materials_content_marker content i Hne Ei). simpl.
    destruct (last _) as [y|] eqn:Ey; [|by left]. right. simpl.
    apply last_Some_elem_of, list_elem_of_fmap in Ey as (line & -> & Hl).
    apply list_elem_of_filter in Hl as [Hcare Hl].
    exists line. split.
    + rewrite <- (take_drop i (split nl (strip content))).
      apply elem_of_app. by right.
    + split; [done|]. by apply is_care_line_false.
  - left. unfold split_materials_content. destruct content; [done|].
    by rewrite Ei.
Qed.

(** X10.  The care text is empty or starts with the marker. *)
Theorem split_materials_content_care_starts_with_marker content :
  (split_materials_content content).1.2 = []
  \/ head (split_materials_content content).1.2 = Some marker.
Proof.
  destruct (decide (content = [])) as [->|Hne]; [by left|].
  destruct (first_asterisk_index (split nl (strip content))) as [i|] eqn:Ei.
  - rewrite (split_materials_content_marker content i Hne Ei). simpl.
    apply strip_join_care, filter_Forall.
  - left. unfold split_materials_content. destruct content; [done|].
    by rewrite Ei.
Qed.

(** X11.  A cell of the expected shape comes apart into its three
    parts: materials [M] without the marker, then care lines [CL]
    that each start with the marker, then one country line [Y] that
    does not, the parts being separated by line feeds and free of
    surrounding white space. *)
Theorem split_materials_content_well_formed M CL Y :
  M <> [] -> strip M = M -> (marker ∉ M) ->
  CL <> [] ->
  Forall (fun l => (nl ∉ l) /\ startswith [marker] (strip l) = true) CL ->
  strip (join nl CL) = join nl CL ->
  Y <> [] -> strip Y = Y -> (nl ∉ Y) -> startswith [marker] Y = false ->
  split_materials_content (M ++ nl :: join nl CL ++ nl :: Y)
  = (M, join nl CL, Y).
Proof.
  intros HM HMs HMm HCL Hall HCLs HY HYs HYn HYm.
  set (content := M ++ nl :: join nl CL ++ nl :: Y).
  assert (content <> []) as Hne by by destruct M.
  assert (strip content = content) as Hstrip.
  { destruct (strip_fixed_inv M HMs) as [HMh _].
    destruct (strip_fixed_inv Y HYs) as [_ HYl].
    apply strip_fixed.
    - intros y Hy. apply HMh. unfold content in Hy.
      destruct M as [|m0 M']; [congruence|exact Hy].
    - intros y Hy. apply HYl. unfold content in Hy.
      rewrite last_app_cons, app_comm_cons, last_app_cons in Hy.
      rewrite last_cons in Hy. destruct (last Y) as [z|] eqn:E; [done|].
      apply last_None in E. congruence. }
  assert (split nl content = split nl M ++ CL ++ [Y]) as Hlines.
  { unfold content. rewrite split_app_sep, split_app_sep.
    rewrite split_join; [|done|].
    - rewrite (split_no_sep nl Y); [done|].
      apply Forall_forall. intros c Hc ->. done.
    - eapply Forall_impl; [exact Hall|]. intros l [Hl _].
      apply Forall_forall. intros c Hc ->. done. }
  assert (first_asterisk_index (split nl (strip content))
          = Some (length (split nl M))) as Hi.
  { rewrite Hstrip, Hlines. destruct CL as [|l0 CL']; [done|].
    apply Forall_cons in Hall as [[_ Hl0] _].
    apply first_asterisk_index_app.
    - apply Forall_forall. intros l Hl. apply contains_false. intros Hc.
      apply HMm. by apply (split_elem nl M l).
    - by apply startswith_marker_contains. }
  rewrite (split_materials_content_marker content _ Hne Hi).
  rewrite Hstrip, Hlines, take_app_length, drop_app_length.
  rewrite !filter_app.
  rewrite (filter_all (fun l => is_care_line l = true) CL).
  2:{ eapply Forall_impl; [exact Hall|]. intros l [_ Hl].
      unfold is_care_line. by rewrite Hl, orb_true_r. }
  rewrite (filter_none (fun l => is_care_line l = false) CL).
  2:{ eapply Forall_impl; [exact Hall|]. intros l [_ Hl].
      unfold is_care_line. by rewrite Hl, orb_true_r. }
  assert (is_care_line Y = false) as HYc.
  { unfold is_care_line. rewrite HYs, HYm.
    by apply orb_false_iff; split; [apply str_eqb_neq|]. }
  rewrite (filter_none (fun l => is_care_line l = true) [Y]).
  2:{ constructor; [|constructor]. by rewrite HYc. }
  rewrite (filter_all (fun l => is_care_line l = false) [Y]).
  2:{ by constructor. }
  rewrite app_nil_r, join_split, HMs, HCLs. simpl. by rewrite HYs.
Qed.

Lemma split_materials_content_well_formed_witness :
  split_materials_content
    (lit "コットン100%" ++ nl :: join nl [lit "※ドライクリーニング"]
     ++ nl :: lit "日本製")
  = (lit "コットン100%", join nl [lit "※ドライクリーニング"], lit "日本製").
Proof.
  apply (split_materials_content_well_formed (lit "コットン100%")
           [lit "※ドライクリーニング"] (lit "日本製")).
  - discriminate.
  - vm_compute. reflexivity.
  - apply (bool_decide_unpack _). vm_compute. exact I.
  - discriminate.
  - apply (bool_decide_unpack _). vm_compute. exact I.
  - vm_compute. reflexivity.
  - discriminate.
  - vm_compute. reflexivity.
  - apply (bool_decide_unpack _). vm_compute. exact I.
  - vm_compute. reflexivity.
Defined.

End SegmenterProperties.

Section DictionaryProperties.

Implicit Types (t : translator) (d learned care : dict) (k v term : str).

(** X12.  Loading learned translations merges them over the
    dictionary: the keys stay distinct, an entry of the file wins over
    the entry of the dictionary with the same term, every other entry
    of the dictionary is kept, the terms of the dictionary keep their
    places and the new terms follow in the order of the file. *)
Theorem load_learned_translations_merges t learned :
  NoDup (keys (translations t)) -> NoDup (keys learned) ->
  NoDup (keys (translations (load_learned_translations t learned)))
  /\ (forall k v,
        (k, v) ∈ translations (load_learned_translations t learned)
        <-> (k, v) ∈ learned
            \/ ((k ∉ keys learned) /\ (k, v) ∈ translations t))
  /\ keys (translations (load_learned_translations t learned))
     = keys (translations t)
       ++ filter (fun k => k ∉ keys (translations t)) (keys learned).
Proof.
  intros Hd Hl. simpl. split; [by apply NoDup_keys_dict_update|].
  split; [|by apply keys_dict_update].
  intros k v. by apply elem_of_dict_update.
Qed.

Lemma load_learned_translations_merges_witness :
  NoDup (keys (translations
                 (load_learned_translations builtin
                    [entry ("七分袖", "Three-Quarter Sleeve")%string])))
  /\ (forall k v,
        (k, v) ∈ translations
                   (load_learned_translations builtin
                      [entry ("七分袖", "Three-Quarter Sleeve")%string])
        <-> (k, v) ∈ [entry ("七分袖", "Three-Quarter Sleeve")%string]
            \/ ((k ∉ keys [entry ("七分袖", "Three-Quarter Sleeve")%string])
                /\ (k, v) ∈ translations builtin))
  /\ keys (translations
             (load_learned_translations builtin
                [entry ("七分袖", "Three-Quarter Sleeve")%string]))
     = keys (translations builtin)
       ++ filter (fun k => k ∉ keys (translations builtin))
            (keys [entry ("七分袖", "Three-Quarter Sleeve")%string]).
Proof.
  apply (load_learned_translations_merges builtin
           [entry ("七分袖", "Three-Quarter Sleeve")%string]).
  - apply (bool_decide_unpack _). vm_compute. exact I.
  - apply (bool_decide_unpack _). vm_compute. exact I.
Defined.

(** X13.  A term that has been learned (or added) is not reported as
    unknown again, and the other unknown terms of a text are reported
    as before. *)
Theorem learn_new_translation_resolves t term english text :
  extract_japanese_terms (learn_new_translation t term english) text
  = extract_japanese_terms t text ∖ {[term]}
  /\ extract_japanese_terms (add_translation t term english) text
     = extract_japanese_terms t text ∖ {[term]}.
Proof.
  assert (extract_japanese_terms (learn_new_translation t term english) text
          = extract_japanese_terms t text ∖ {[term]}) as H.
  { apply set_eq. intros x.
    rewrite elem_of_difference, elem_of_singleton, !elem_of_extract.
    rewrite !is_unknown_spec. simpl. rewrite keys_dict_set_elem. tauto. }
  split; exact H.
Qed.

(** X14.  [sorted] with the key length as key and [reverse=True] is a
    stable sort: the entries come out rearranged, longer terms first,
    and the entries with terms of one length keep the order they have
    in the dictionary. *)
Theorem sorted_by_len_stable d :
  sorted_by_len d ≡ₚ d
  /\ StronglySorted longer_first (sorted_by_len d)
  /\ forall n,
       filter (fun e => length e.1 = n) (sorted_by_len d)
       = filter (fun e => length e.1 = n) d.
Proof.
  split; [apply sorted_by_len_perm|]. split; [apply sorted_by_len_sorted|].
  intros n. rewrite filter_sorted_by_len. apply sorted_by_len_fixed.
  apply (same_length_sorted n), filter_Forall.
Qed.

(** The dictionary that saving and loading again builds. *)
Lemma save_load_dictionary B learned :
  NoDup (keys B) -> NoDup (keys learned) ->
  exists B' E,
    dict_update B learned = B' ++ E
    /\ dict_update B (sorted_by_len (dict_update B learned))
       = B' ++ sorted_by_len E.
Proof.
  intros HB Hl. set (d := dict_update B learned).
  assert (NoDup (keys d)) as Hd by by apply NoDup_keys_dict_update.
  pose proof (keys_dict_update B learned Hl) as Hkeys. fold d in Hkeys.
  set (K := filter (fun k => k ∉ keys B) (keys learned)) in Hkeys.
  set (B' := take (length B) d). set (E := drop (length B) d).
  assert (d = B' ++ E) as Hsplit by (symmetry; apply take_drop).
  assert (keys B' = keys B) as HB'.
  { unfold B'. rewrite keys_take, Hkeys.
    replace (length B) with (length (keys B))
      by (unfold keys; by rewrite length_map).
    by rewrite take_app_length. }
  assert (keys E = K) as HE.
  { apply (app_inv_head (keys B)). rewrite <- Hkeys, <- HB', <- keys_app.
    by rewrite <- Hsplit. }
  exists B', E. split; [exact Hsplit|].
  set (S := sorted_by_len d).
  pose proof (sorted_by_len_perm d) as Hperm. fold S in Hperm.
  assert (NoDup (keys S)) as HS by by rewrite (keys_perm _ _ Hperm).
  assert (filter (fun e => e.1 ∉ keys B) d = E) as Hfilter.
  { rewrite Hsplit, (filter_app _ B' E).
    rewrite (filter_none (fun e => e.1 ∉ keys B) B').
    2:{ apply Forall_forall. intros e He Hn. apply Hn. rewrite <- HB'.
        apply keys_elem. exists e.2. by destruct e. }
    apply filter_all. apply Forall_forall. intros e He Hin.
    rewrite Hsplit, keys_app in Hd. apply NoDup_app in Hd as (_ & Hd & _).
    apply (Hd e.1); [by rewrite HB'|].
    apply keys_elem. exists e.2. by destruct e. }
  apply dict_ext.
  - rewrite keys_app, (keys_perm _ _ (sorted_by_len_perm E)), <- keys_app.
    by rewrite <- Hsplit.
  - rewrite (keys_dict_update B S HS), keys_app, HB'. f_equal.
    rewrite <- (keys_filter (fun k => k ∉ keys B)). unfold S.
    rewrite filter_sorted_by_len. do 2 f_equal. exact Hfilter.
  - intros [k v] Hin. apply (elem_of_dict_update B S k v HB HS) in Hin.
    destruct Hin as [Hin|[Hk Hin]].
    + rewrite Hperm, Hsplit in Hin.
      rewrite elem_of_app, (sorted_by_len_perm E), <- elem_of_app. exact Hin.
    + exfalso. apply Hk. rewrite (keys_perm _ _ Hperm), Hkeys.
      apply elem_of_app. left. apply keys_elem. by exists v.
Qed.

(** X15.  Saving the dictionary and starting again from the saved
    file gives a translator that applies the entries in the same
    order, knows the same terms, and so translates every text to the
    same result and reports the same unknown terms. *)
Theorem save_learned_translations_round_trip learned care :
  NoDup (keys learned) ->
  let t := init learned care in
  let t' := init (save_learned_translations t) care in
  sorted_by_len (translations t') = sorted_by_len (translations t)
  /\ (forall text interactive,
        (translate_text t' (VStr text) interactive).1
        = (translate_text t (VStr text) interactive).1)
  /\ (forall text,
        extract_japanese_terms t' text = extract_japanese_terms t text).
Proof.
  intros Hl t t'.
  assert (NoDup (keys base_translations)) as HB.
  { apply (bool_decide_unpack _). vm_compute. exact I. }
  assert (sorted_by_len (translations t') = sorted_by_len (translations t))
    as Hs.
  { unfold t', t, init, save_learned_translations. simpl.
    destruct (save_load_dictionary base_translations learned HB Hl)
      as (B' & E & H1 & H2).
    rewrite H2, H1, !sorted_by_len_app.
    by rewrite (sorted_by_len_fixed _ (sorted_by_len_sorted E)). }
  split; [exact Hs|]. split.
  - intros text interactive. unfold translate_text.
    destruct text as [|c r]; [done|]. simpl. do 3 f_equal.
    apply map_ext. intros line. by apply translate_line_order.
  - intros text. apply set_eq. intros x.
    rewrite !elem_of_extract, !is_unknown_spec.
    by rewrite (keys_sorted_perm _ _ Hs).
Qed.

Lemma save_learned_translations_round_trip_witness :
  let t := init [entry ("七分袖", "Three-Quarter Sleeve")%string] [] in
  let t' := init (save_learned_translations t) [] in
  sorted_by_len (translations t') = sorted_by_len (translations t)
  /\ (forall text interactive,
        (translate_text t' (VStr text) interactive).1
        = (translate_text t (VStr text) interactive).1)
  /\ (forall text,
        extract_japanese_terms t' text = extract_japanese_terms t text).
Proof.
  apply (save_learned_translations_round_trip
           [entry ("七分袖", "Three-Quarter Sleeve")%string] []).
  apply (bool_decide_unpack _). vm_compute. exact I.
Defined.

End DictionaryProperties.

Section TextProperties.

Implicit Types (t : translator) (s o a r : str) (x y : char).

(** X16.  When no translation in the dictionary holds a line feed,
    [translate_text] answers a text with as many lines as its input:
    terms are replaced inside the lines, never across them. *)
Theorem translate_text_keeps_lines t s interactive :
  Forall (fun e => nl ∉ e.2) (translations t) ->
  length (split nl (value_str (translate_text t (VStr s) interactive).1))
  = length (split nl s).
Proof.
  intros Hd. destruct (decide (s = [])) as [->|Hne]; [done|].
  rewrite translate_text_str by done. cbn [value_str].
  rewrite split_length, count_nl_normalize, <- split_length.
  rewrite split_join.
  - by rewrite length_map.
  - pose proof (split_nonempty nl s). by destruct (split nl s).
  - apply Forall_forall. intros l (line & -> & Hline)%list_elem_of_fmap.
    assert (nl ∉ translate_line (translations t) line) as Hnl.
    { apply translate_line_no_nl; [done|].
      pose proof (split_lines_no_nl s) as H. rewrite Forall_forall in H.
      by apply H. }
    apply Forall_forall. intros c Hc ->. done.
Qed.

Lemma translate_text_keeps_lines_witness :
  length (split nl (value_str
                      (translate_text builtin
                         (VStr (text_of ["総丈78cm"; ""; "袖丈60cm"]%string))
                         true).1))
  = length (split nl (text_of ["総丈78cm"; ""; "袖丈60cm"]%string)).
Proof.
  apply (translate_text_keeps_lines builtin
           (text_of ["総丈78cm"; ""; "袖丈60cm"]%string) true).
  apply (bool_decide_unpack _). vm_compute. exact I.
Defined.

(** X17.  Whatever the dictionary, the text that [translate_text]
    answers holds no key of the full-width table, has white space
    behind every [)], [,] and [:], and has no letter of [A-Za-z]
    directly in front of a decimal digit. *)
Theorem translate_text_output_normalized t s interactive :
  let o := value_str (translate_text t (VStr s) interactive).1 in
  Forall (fun c => [c] ∉ keys fullwidth_to_halfwidth) o
  /\ (forall a x r,
        o = a ++ x :: r -> is_punct x = true ->
        exists y r', r = y :: r' /\ is_space y = true)
  /\ (forall a x y r,
        o = a ++ x :: y :: r -> is_ascii_letter x = true ->
        is_decimal y = false).
Proof.
  intros o. destruct (decide (s = [])) as [->|Hne].
  { subst o. simpl. split; [constructor|].
    split; intros [|? ?]; intros; discriminate. }
  subst o. rewrite translate_text_str by done. cbn [value_str].
  set (u := join nl (map (translate_line (translations t)) (split nl s))).
  rewrite normalize_insert. split; [|split].
  - eapply (Forall_impl (fun c => is_fullwidth c = false)).
    { do 2 (apply insert_after_Forall; [reflexivity|]).
      unfold punct_spaced. apply insert_after_Forall; [reflexivity|].
      apply convert_clears. }
    intros c Hc Hin.
    simpl in Hc. apply not_true_iff_false in Hc. apply Hc.
    unfold is_fullwidth. apply existsb_exists.
    apply list_elem_of_fmap in Hin as (e & He & Hin).
    exists e. split; [by apply list_elem_of_In|].
    apply str_eqb_eq. by rewrite He.
  - intros a x r Heq Hx.
    assert (punct_f x r = false) as H.
    { eapply (settled_at punct_f); [|exact Heq].
      do 2 apply punct_settled_preserved. apply punct_spaced_settled. }
    unfold punct_f in H. rewrite Hx in H. simpl in H.
    apply negb_false_iff in H. destruct r as [|y r']; [done|].
    by exists y, r'.
  - intros a x y r Heq Hx.
    assert (letter_gap false x (y :: r) = false) as H.
    { eapply (settled_at (letter_gap false)); [|exact Heq].
      apply letter_settled. }
    unfold letter_gap in H. rewrite Hx in H. simpl in H.
    by rewrite andb_true_r in H.
Qed.

End TextProperties.

Section RowProperties.

Implicit Types (t : translator) (row : list str) (rows : list (list str))
  (mc : Z).

(** X18.  The body of the row loop raises (an [IndexError]) exactly
    for a row that is not empty and a materials column that counts
    from the end beyond the start of the row; in particular never for
    a column index that is not negative. *)
Theorem process_row_raises t row interactive mc :
  process_row t row interactive mc = None
  <-> row <> [] /\ (mc < - Z.of_nat (length row))%Z.
Proof.
  unfold process_row. destruct row as [|dims rest].
  { split; [done|]. by intros [[] _]. }
  destruct (translate_text t (VStr dims) interactive) as [b t1].
  destruct (Z.ltb_spec mc (Z.of_nat (length (dims :: rest)))) as [Hlt|Hge].
  - rewrite <- (index_none (dims :: rest) mc Hlt).
    destruct (index (dims :: rest) mc) as [cell|].
    + destruct (split_materials_content cell) as [[m c] y].
      destruct (translate_text t1 (VStr m) interactive) as [dm t2].
      split; [done|]. by intros [_ ?].
    + split; [|done]. intros _. by split.
  - split; [done|]. intros [_ H]. lia.
Qed.

(** X19.  Processing a row never changes the dictionary or the care
    labels and never forgets an unknown term; without learning mode
    it leaves the translator as it was. *)
Theorem process_row_keeps_dictionary t row interactive mc :
  match process_row t row interactive mc with
  | Some (_, t') =>
    translations t' = translations t
    /\ care_labels t' = care_labels t
    /\ unknown_terms t ⊆ unknown_terms t'
    /\ (interactive = false -> t' = t)
  | None => True
  end.
Proof.
  destruct (process_row t row interactive mc) as [[record t']|] eqn:E;
    [|done].
  by apply (process_row_state t row interactive mc record).
Qed.

(** X20.  With a materials column that is not negative the row loop
    never raises and writes one record for every row, blank lines
    included; the dictionary and the care labels are the same
    afterwards. *)
Theorem process_rows_one_record_per_row t rows interactive mc :
  (0 <= mc)%Z ->
  exists records t',
    process_rows t rows interactive mc = Some (records, t')
    /\ length records = length rows
    /\ translations t' = translations t
    /\ care_labels t' = care_labels t.
Proof.
  intros Hmc. revert t. induction rows as [|row rows IH]; intros t.
  - by exists [], t.
  - cbn [process_rows].
    destruct (process_row t row interactive mc) as [[record t1]|] eqn:E.
    + apply process_row_state in E as (Ed & Ec & _).
      destruct (IH t1) as (records & t2 & -> & Hlen & Hd & Hc).
      exists (record :: records), t2. split; [done|]. simpl.
      split; [by rewrite Hlen|]. split; congruence.
    + destruct (process_row_some t row interactive mc Hmc) as [? E'].
      congruence.
Qed.

Lemma process_rows_one_record_per_row_witness :
  exists records t',
    process_rows builtin [[lit "総丈78cm"; lit "綿100%"]; []] true 1
    = Some (records, t')
    /\ length records = length [[lit "総丈78cm"; lit "綿100%"]; []]
    /\ translations t' = translations builtin
    /\ care_labels t' = care_labels builtin.
Proof.
  apply (process_rows_one_record_per_row builtin
           [[lit "総丈78cm"; lit "綿100%"]; []] true 1).
  lia.
Defined.

(** X21.  The records that the row loop writes are the same with and
    without learning mode: learning mode only collects unknown
    terms. *)
Theorem process_rows_learning_mode_same_records t rows mc :
  fst <$> process_rows t rows true mc = fst <$> process_rows t rows false mc.
Proof.
  assert (forall t1 t2,
            translations t1 = translations t2 ->
            care_labels t1 = care_labels t2 ->
            fst <$> process_rows t1 rows true mc
            = fst <$> process_rows t2 rows false mc) as H.
  { induction rows as [|row rows IH]; intros t1 t2 Hd Hc; [done|].
    cbn [process_rows].
    pose proof (process_row_record t1 t2 row true false mc Hd Hc) as Hr.
    destruct (process_row t1 row true mc) as [[r1 u1]|] eqn:E1;
      destruct (process_row t2 row false mc) as [[r2 u2]|] eqn:E2;
      try done.
    simpl in Hr. injection Hr as <-.
    apply process_row_state in E1 as (E1d & E1c & _).
    apply process_row_state in E2 as (E2d & E2c & _).
    assert (translations u1 = translations u2) as Hd' by congruence.
    assert (care_labels u1 = care_labels u2) as Hc' by congruence.
    specialize (IH u1 u2 Hd' Hc').
    destruct (process_rows u1 rows true mc) as [[rs1 w1]|];
      destruct (process_rows u2 rows false mc) as [[rs2 w2]|]; try done.
    simpl in *. by injection IH as <-. }
  by apply H.
Qed.

End RowProperties.

Section MoreProperties.

Implicit Types (t : translator) (s a run b : str) (c : char).

(** X22.  A text in which no term of the dictionary occurs is only
    normalized by [translate_text]. *)
Theorem translate_text_without_terms t s interactive :
  Forall (fun e => occurs e.1 s = false) (translations t) ->
  (translate_text t (VStr s) interactive).1 = VStr (normalize s).
Proof.
  intros H. destruct (decide (s = [])) as [->|Hne]; [done|].
  rewrite translate_text_str by done. do 2 f_equal.
  rewrite map_id_on; [apply join_split|].
  apply Forall_forall. intros line Hline. apply translate_line_absent.
  eapply Forall_impl; [exact H|]. intros e He. simpl in He.
  destruct (occurs e.1 line) eqn:E; [|done].
  by rewrite (occurs_in_line nl s line e.1 Hline E) in He.
Qed.

Lemma translate_text_without_terms_witness :
  (translate_text builtin (VStr (lit "（Ｓ）:A1")) true).1
  = VStr (normalize (lit "（Ｓ）:A1")).
Proof.
  apply (translate_text_without_terms builtin (lit "（Ｓ）:A1") true).
  apply (bool_decide_unpack _). vm_compute. exact I.
Defined.

(** X23.  The normalization alone never touches a run of half-width
    digits: the run is in the normalized text unchanged and in one
    piece, for every text. *)
Theorem normalize_never_alters_digits a run b :
  Forall (fun c => is_ascii_digit c = true) run ->
  exists a' b', normalize (a ++ run ++ b) = a' ++ run ++ b'.
Proof.
  intros Hrun.
  destruct (normalize_keeps_digits a run b Hrun) as (a' & b' & H).
  by exists a', b'.
Qed.

Lemma normalize_never_alters_digits_witness :
  exists a' b',
    normalize (lit "Cotton" ++ lit "100" ++ lit "%") = a' ++ lit "100" ++ b'.
Proof.
  apply (normalize_never_alters_digits (lit "Cotton") (lit "100") (lit "%")).
  apply (bool_decide_unpack _). vm_compute. exact I.
Defined.

(** X24.  The table turns every full-width digit and every
    full-width Latin letter into its half-width form, the character
    0xFEE0 code points below it. *)
Theorem halfwidth_of_digits_and_letters c :
  (0xFF10 <= c <= 0xFF19 \/ 0xFF21 <= c <= 0xFF3A \/ 0xFF41 <= c <= 0xFF5A)%N ->
  convert_fullwidth_to_halfwidth [c] = [c - 0xFEE0]%N.
Proof.
  intros Hc.
  change (convert_fullwidth_to_halfwidth [c])
    with (replace_all fullwidth_to_halfwidth [c]).
  rewrite (replace_all_subst is_fullwidth fullwidth_to_halfwidth [c]
             fullwidth_table_keys fullwidth_table_clearing).
  cbn [flat_map]. rewrite app_nil_r. fold (halfwidth_of c).
  apply str_eqb_eq.
  pose proof fullwidth_alnum_table as H. rewrite forallb_forall in H.
  apply H, list_elem_of_In. unfold fullwidth_alnum.
  rewrite !elem_of_app.
  destruct Hc as [Hc|[Hc|Hc]];
    [left|right; left|right; right]; apply elem_of_offsets; lia.
Qed.

Lemma halfwidth_of_digits_and_letters_witness :
  convert_fullwidth_to_halfwidth [chr "７"] = [chr "７" - 0xFEE0]%N.
Proof.
  apply (halfwidth_of_digits_and_letters (chr "７")).
  left. vm_compute. split; discriminate.
Defined.

End MoreProperties.
